(** * Dynamic batching scheduler of emb-infer-bge-m3

    A shallow embedding of [src/services/batch_service.py] (class
    [BatchProcessor]), of [process_bge_embeddings] from
    [src/services/model_service.py] and of the shutdown half of [lifespan]
    in [src/main.py].

    Modelling choices:
    - Python exceptions are the constructors of [Exn]; a fallible pure
      computation returns [Result]; stateful code that may raise runs in the
      monad [M] below, which keeps the state reached when an exception is
      raised (Python does not roll back mutations).
    - asyncio futures are numbered cells in a store ([futures]); the store
      is shared by the caller waiting on the future and the batch that
      resolves it.
    - Clock readings ([time.time()]) are inputs in milliseconds ([Z]).
    - [asyncio.create_task(self._process_batch(batch, f))] appends the task
      to [spawned]; running a spawned task is a separate step. Inside the
      critical sections of [add_request] and of the sweeper there is no
      [await], and [process_bge_embeddings] never suspends, so each of these
      code regions runs without interleaving and is one atomic step here. *)

From Stdlib Require Import String Ascii List ZArith Lia Bool PrimFloat Permutation DecimalString.
Import ListNotations.
Open Scope string_scope.
Open Scope list_scope.

(** ** Configuration ([src/core/config.py]) *)

Record Config := mkConfig {
  MAX_QUEUE_SIZE : Z;
  BATCH_SIZE : Z;
  BATCH_TIMEOUT_MS : Z
}.

(** ** Python list slicing [l[:k]] and [l[k:]] for an integer [k]
    (a negative [k] counts from the end). *)

Definition py_index (k : Z) (n : nat) : nat :=
  if (k <? 0)%Z then Z.to_nat (Z.max 0 (Z.of_nat n + k)) else Z.to_nat k.

Definition py_take {A} (k : Z) (l : list A) : list A :=
  firstn (py_index k (length l)) l.

Definition py_drop {A} (k : Z) (l : list A) : list A :=
  skipn (py_index k (length l)) l.

(** [l[s:e]] for non-negative bounds. *)
Definition py_slice {A} (s e : nat) (l : list A) : list A :=
  firstn (e - s) (skipn s l).

(** ** Exceptions *)

Inductive Exn :=
| HTTPException (status_code : Z) (detail : string)
| ValueError (msg : string)
| AttributeError (msg : string)
| IndexError
| InvalidStateError
| EncoderFailure (tag : nat)          (* anything raised inside encoder.encode *)
| ValidationError (tag : nat).        (* pydantic validation of a model *)

Inductive Result (A : Type) :=
| Ok (a : A)
| Err (e : Exn).
Arguments Ok {A} a.
Arguments Err {A} e.

Definition SHUTDOWN_ERROR : Exn :=
  HTTPException 503 "Service is shutting down, please try again later".

Definition CAPACITY_ERROR : Exn :=
  HTTPException 503
    "Server is currently handling maximum number of requests. Please try again later.".

(** ** Schemas ([src/models/schemas.py]) *)

(** [input: Union[str, List[str]]]. The schema admits no other shape, so
    the all-integers branch and the [str(...)] fallback of [add_request]
    and the [ValueError] of [process_bge_embeddings] cannot fire. *)
Inductive Input :=
| InStr (s : string)
| InList (l : list string).

(** [Optional[bool]] flags: [None] is falsy wherever they are read, so a
    flag is a [bool]. *)
Record EmbeddingRequest := mkRequest {
  model : string;
  input : Input;
  return_dense : bool;
  return_sparse : bool;
  return_colbert : bool;
  encoding_format : string;
  user : option string
}.

Definition DenseVec := list float.
Definition SparseVec := list (Z * float).
Definition ColbertVec := list (list float).

Record BGEEmbeddingData := mkData {
  index : nat;
  dense_embedding : option DenseVec;
  sparse_embedding : option SparseVec;
  colbert_embedding : option ColbertVec
}.

Record BGEEmbeddingResponse := mkResponse {
  data : list BGEEmbeddingData;
  resp_model : string;
  prompt_tokens : Z;
  total_tokens : Z;
  embedding_types : list string
}.

(** What [encoder.encode(...)] returns: per-text vectors, positionally
    aligned with the input list; an entry may be [None]. A missing key of
    the result dict is the empty list ([.get(key, [])]). *)
Record EncodeResult := mkEncodeResult {
  dense_vecs : list (option DenseVec);
  lexical_weights : list (option SparseVec);
  colbert_vecs : list (option ColbertVec)
}.

Definition Encoder := list string -> Result EncodeResult.

(** [process_func(request, encoder)]; the encoder is [None] on the
    empty-input path. *)
Definition ProcessFunc := EmbeddingRequest -> option Encoder -> Result BGEEmbeddingResponse.

(** ** The batch processor's state *)

Inductive FutState :=
| FPending
| FResult (r : BGEEmbeddingResponse)
| FError (e : Exn).

Record BatchItem := mkItem {
  request : EmbeddingRequest;
  future : nat;
  timestamp : Z;
  original_input_length : nat
}.

Record World := mkWorld {
  pending_requests : list BatchItem;
  is_shutting_down : bool;
  futures : nat -> FutState;
  next_future : nat;
  spawned : list (list BatchItem * ProcessFunc);
  total_batches : Z;
  total_requests : Z;
  timeout_task_running : bool;          (* app.state.batch_timeout_task *)
  app_encoder : option Encoder          (* app.state.encoder *)
}.

Definition set_pending (q : list BatchItem) (w : World) : World :=
  mkWorld q (is_shutting_down w) (futures w) (next_future w) (spawned w)
    (total_batches w) (total_requests w) (timeout_task_running w) (app_encoder w).

Definition set_shutting_down (b : bool) (w : World) : World :=
  mkWorld (pending_requests w) b (futures w) (next_future w) (spawned w)
    (total_batches w) (total_requests w) (timeout_task_running w) (app_encoder w).

Definition set_future (fid : nat) (st : FutState) (w : World) : World :=
  mkWorld (pending_requests w) (is_shutting_down w)
    (fun k => if Nat.eqb k fid then st else futures w k)
    (next_future w) (spawned w)
    (total_batches w) (total_requests w) (timeout_task_running w) (app_encoder w).

Definition set_next_future (n : nat) (w : World) : World :=
  mkWorld (pending_requests w) (is_shutting_down w) (futures w) n (spawned w)
    (total_batches w) (total_requests w) (timeout_task_running w) (app_encoder w).

Definition set_spawned (t : list (list BatchItem * ProcessFunc)) (w : World) : World :=
  mkWorld (pending_requests w) (is_shutting_down w) (futures w) (next_future w) t
    (total_batches w) (total_requests w) (timeout_task_running w) (app_encoder w).

Definition set_stats (b r : Z) (w : World) : World :=
  mkWorld (pending_requests w) (is_shutting_down w) (futures w) (next_future w)
    (spawned w) b r (timeout_task_running w) (app_encoder w).

Definition set_app (task : bool) (enc : option Encoder) (w : World) : World :=
  mkWorld (pending_requests w) (is_shutting_down w) (futures w) (next_future w)
    (spawned w) (total_batches w) (total_requests w) task enc.

(** [asyncio.create_task(self._process_batch(batch, f))] *)
Definition create_task (batch : list BatchItem) (f : ProcessFunc) (w : World) : World :=
  set_spawned (spawned w ++ [(batch, f)]) w.

(** ** Operations *)

Section Scheduler.

(** [int(sum(len(text.split()) * 1.3 for text in texts))]: the token
    estimate, computed in floating point; only the texts it is applied to
    matter here. *)
Variable token_estimate : list string -> Z.

(** The validation done by the [BGEEmbeddingResponse(...)] constructor
    inside the per-member [try] of [_process_batch]: [Some e] when it
    raises [e]. *)
Variable validate_response : BGEEmbeddingResponse -> option Exn.

(** *** [process_bge_embeddings] (model_service.py) *)

Definition requested_types (rd rs rc : bool) : list string :=
  (if rd then ["dense"] else []) ++
  (if rs then ["sparse"] else []) ++
  (if rc then ["colbert"] else []).

(** [v[i]] guarded by [i < len(v) and v[i] is not None]. *)
Definition vec_at {A} (v : list (option A)) (i : nat) : option A :=
  match nth_error v i with
  | Some (Some x) => Some x
  | _ => None
  end.

Definition bge_data (rd rs rc : bool) (er : EncodeResult) (i : nat) : BGEEmbeddingData :=
  mkData i
    (if rd then vec_at (dense_vecs er) i else None)
    (if rs then vec_at (lexical_weights er) i else None)
    (if rc then vec_at (colbert_vecs er) i else None).

Definition input_texts (i : Input) : list string :=
  match i with
  | InStr s => [s]
  | InList l => l
  end.

Definition process_bge_embeddings (req : EmbeddingRequest) (encoder : option Encoder)
  : Result BGEEmbeddingResponse :=
  let rd := return_dense req in
  let rs := return_sparse req in
  let rc := return_colbert req in
  match input req with
  | InList [] => Ok (mkResponse [] (model req) 0 0 (requested_types rd rs rc))
  | i =>
    let inputs := input_texts i in
    if negb (rd || rs || rc) then
      Err (ValueError "At least one vector type must be requested (return_dense, return_sparse, or return_colbert)")
    else
      match encoder with
      | None => Err (AttributeError "'NoneType' object has no attribute 'encode'")
      | Some enc =>
        match enc inputs with
        | Err e => Err e
        | Ok er =>
          Ok (mkResponse (map (bge_data rd rs rc er) (seq 0 (length inputs)))
                (model req) (token_estimate inputs) (token_estimate inputs)
                (requested_types rd rs rc))
        end
      end
  end.

(** *** [BatchProcessor.add_request] *)

(** [EmbeddingRequest(model=r.model, input=texts, encoding_format=...,
    return_dense=..., return_sparse=..., return_colbert=..., user=r.user)]:
    the request copied with a new input list. Built by [add_request] for
    the queued entry and by [_process_batch] for the combined request. *)
Definition with_input (r : EmbeddingRequest) (texts : list string) : EmbeddingRequest :=
  mkRequest (model r) (InList texts) (return_dense r) (return_sparse r)
    (return_colbert r) (encoding_format r) (user r).

(** How the call ends for the caller: an exception, a value returned at
    once, or [await future] on the future numbered [fid]. *)
Inductive Outcome :=
| Raised (e : Exn)
| Returned (r : BGEEmbeddingResponse)
| Awaiting (fid : nat).

Definition of_result (r : Result BGEEmbeddingResponse) : Outcome :=
  match r with
  | Ok v => Returned v
  | Err e => Raised e
  end.

(** [(time.time() - q[0].timestamp) * 1000 >= BATCH_TIMEOUT_MS] for a
    non-empty [q]. *)
Definition oldest_is_stale (cfg : Config) (now : Z) (q : list BatchItem) : bool :=
  match q with
  | [] => false
  | oldest :: _ => (BATCH_TIMEOUT_MS cfg <=? now - timestamp oldest)%Z
  end.

Definition should_process (cfg : Config) (now : Z) (q : list BatchItem) : bool :=
  (BATCH_SIZE cfg <=? Z.of_nat (length q))%Z || oldest_is_stale cfg now q.

Definition add_request (cfg : Config) (now : Z) (req : EmbeddingRequest)
  (process_func : ProcessFunc) (w : World) : World * Outcome :=
  if is_shutting_down w then (w, Raised SHUTDOWN_ERROR) else
  match input req with
  | InList [] => (w, of_result (process_func req None))
  | i =>
    let inputs := input_texts i in
    (* future = asyncio.Future() *)
    let fid := next_future w in
    let w1 := set_future fid FPending (set_next_future (S fid) w) in
    let batch_item := mkItem (with_input req inputs) fid now (length inputs) in
    (* async with self.batch_lock: *)
    if (MAX_QUEUE_SIZE cfg <=? Z.of_nat (length (pending_requests w1)))%Z then
      (w1, Raised CAPACITY_ERROR)
    else
      let q := pending_requests w1 ++ [batch_item] in
      if should_process cfg now q then
        (create_task (py_take (BATCH_SIZE cfg) q) process_func
           (set_pending (py_drop (BATCH_SIZE cfg) q) w1), Awaiting fid)
      else (set_pending q w1, Awaiting fid)
  end.

(** *** A state monad with Python exceptions *)

Inductive Out (A : Type) :=
| Ret (a : A) (w : World)
| Raise (e : Exn) (w : World).
Arguments Ret {A} a w.
Arguments Raise {A} e w.

Definition M (A : Type) := World -> Out A.

Definition ret {A} (a : A) : M A := fun w => Ret a w.
Definition raise {A} (e : Exn) : M A := fun w => Raise e w.
Definition bind {A B} (m : M A) (k : A -> M B) : M B :=
  fun w => match m w with
           | Ret a w' => k a w'
           | Raise e w' => Raise e w'
           end.
Definition try_except {A} (m : M A) (h : Exn -> M A) : M A :=
  fun w => match m w with
           | Ret a w' => Ret a w'
           | Raise e w' => h e w'
           end.
Definition get : M World := fun w => Ret w w.
Definition modify (f : World -> World) : M unit := fun w => Ret tt (f w).

Local Notation "x <- m ;; k" := (bind m (fun x => k))
  (at level 61, m at next level, right associativity).

Definition done (fid : nat) : M bool :=
  fun w => Ret (match futures w fid with FPending => false | _ => true end) w.

(** [Future.set_result] and [Future.set_exception] raise
    [InvalidStateError] on a future that is already done. *)
Definition set_result (fid : nat) (r : BGEEmbeddingResponse) : M unit :=
  fun w => match futures w fid with
           | FPending => Ret tt (set_future fid (FResult r) w)
           | _ => Raise InvalidStateError w
           end.

Definition set_exception (fid : nat) (e : Exn) : M unit :=
  fun w => match futures w fid with
           | FPending => Ret tt (set_future fid (FError e) w)
           | _ => Raise InvalidStateError w
           end.

(** *** [BatchProcessor._process_batch] *)

(** [item.request.input] as iterated by [extend] and measured by [len]:
    a list of texts (a plain string would contribute its characters). *)
Definition item_texts (item : BatchItem) : list string :=
  match input (request item) with
  | InList l => l
  | InStr s => map (fun c => String c EmptyString) (list_ascii_of_string s)
  end.

(** The loop filling [all_texts] and [request_boundaries]. *)
Fixpoint boundaries_from (current_index : nat) (batch : list BatchItem) : list (nat * nat) :=
  match batch with
  | [] => []
  | item :: rest =>
    let start_idx := current_index in
    let current_index' := current_index + length (item_texts item) in
    (start_idx, current_index') :: boundaries_from current_index' rest
  end.

Definition request_boundaries (batch : list BatchItem) : list (nat * nat) :=
  boundaries_from 0 batch.

Definition all_texts (batch : list BatchItem) : list string :=
  concat (map item_texts batch).

(** [for j, data_item in enumerate(request_data): data_item.index = j].
    The slices of distinct members are disjoint, so each data object is
    renumbered by one member only. *)
Fixpoint reindex_from (j : nat) (l : list BGEEmbeddingData) : list BGEEmbeddingData :=
  match l with
  | [] => []
  | d :: rest =>
    mkData j (dense_embedding d) (sparse_embedding d) (colbert_embedding d)
      :: reindex_from (S j) rest
  end.

Definition individual_result (batch_result : BGEEmbeddingResponse) (item : BatchItem)
  (start_idx end_idx : nat) : BGEEmbeddingResponse :=
  let request_data := reindex_from 0 (py_slice start_idx end_idx (data batch_result)) in
  let orig_req := request item in
  mkResponse request_data (resp_model batch_result)
    (token_estimate (item_texts item)) (token_estimate (item_texts item))
    (requested_types (return_dense orig_req) (return_sparse orig_req) (return_colbert orig_req)).

(** One iteration of the fan-out loop, with its own [try]/[except]. *)
Definition resolve_member (batch_result : BGEEmbeddingResponse) (item : BatchItem)
  (start_idx end_idx : nat) : M unit :=
  try_except
    (let r := individual_result batch_result item start_idx end_idx in
     match validate_response r with
     | Some e => raise e
     | None => set_result (future item) r
     end)
    (fun e => set_exception (future item) e).

Fixpoint resolve_members (batch_result : BGEEmbeddingResponse)
  (members : list (BatchItem * (nat * nat))) : M unit :=
  match members with
  | [] => ret tt
  | (item, (start_idx, end_idx)) :: rest =>
    _ <- resolve_member batch_result item start_idx end_idx ;;
    resolve_members batch_result rest
  end.

(** The outer [except]: [if not item.future.done(): item.future.set_exception(e)]. *)
Fixpoint fail_all (e : Exn) (batch : list BatchItem) : M unit :=
  match batch with
  | [] => ret tt
  | item :: rest =>
    d <- done (future item) ;;
    _ <- (if d then ret tt else set_exception (future item) e) ;;
    fail_all e rest
  end.

Definition process_batch (batch : list BatchItem) (process_func : ProcessFunc) : M unit :=
  try_except
    (match batch with
     | [] => raise IndexError                          (* batch[0] *)
     | first :: _ =>
       let texts := all_texts batch in
       let bounds := request_boundaries batch in
       let fr := request first in
       let combined_request := with_input fr texts in
       w <- get ;;
       match app_encoder w with
       | None => raise (AttributeError "'State' object has no attribute 'encoder'")
       | Some enc =>
         match process_func combined_request (Some enc) with
         | Err e => raise e
         | Ok batch_result =>
           _ <- resolve_members batch_result (combine batch bounds) ;;
           modify (fun w => set_stats (total_batches w + 1)
                              (total_requests w + Z.of_nat (length batch)) w)
         end
       end
     end)
    (fun e => fail_all e batch).

(** The state left by a task once it has finished, normally or not. *)
Definition run_batch (batch : list BatchItem) (process_func : ProcessFunc) (w : World) : World :=
  match process_batch batch process_func w with
  | Ret _ w' => w'
  | Raise _ w' => w'
  end.

(** *** [start_timeout_processor]: one tick of the loop, after its sleep *)

Definition sweeper_tick (cfg : Config) (now : Z) (w : World) : World :=
  match pending_requests w with
  | [] => w
  | oldest :: _ =>
    if (BATCH_TIMEOUT_MS cfg <=? now - timestamp oldest)%Z then
      create_task (pending_requests w) process_bge_embeddings (set_pending [] w)
    else w
  end.

(** *** [graceful_shutdown]. The final poll of [active_batches] reads the
    state only. *)

Definition graceful_shutdown (w : World) : World :=
  let w1 := set_shutting_down true w in
  match pending_requests w1 with
  | [] => w1
  | batch_to_process => run_batch batch_to_process process_bge_embeddings (set_pending [] w1)
  end.

(** *** The shutdown half of [lifespan] (main.py): cancel the timeout
    task, delete [app.state.encoder]. *)

Definition lifespan_shutdown (w : World) : World :=
  set_app false None w.

(** *** Steps of the running service *)

(** What the application does by itself: serve a request, tick the
    sweeper while its task runs, run a spawned batch task, tear down. *)
Inductive app_step (cfg : Config) : World -> World -> Prop :=
| step_request now req pf w w' o :
    add_request cfg now req pf w = (w', o) -> app_step cfg w w'
| step_sweep now w :
    timeout_task_running w = true -> app_step cfg w (sweeper_tick cfg now w)
| step_batch pre batch pf post w :
    spawned w = pre ++ (batch, pf) :: post ->
    app_step cfg w (run_batch batch pf (set_spawned (pre ++ post) w))
| step_lifespan w : app_step cfg w (lifespan_shutdown w).

(** Any step, including a call of [graceful_shutdown] from outside. *)
Inductive step (cfg : Config) : World -> World -> Prop :=
| step_app w w' : app_step cfg w w' -> step cfg w w'
| step_graceful w : step cfg w (graceful_shutdown w).

Inductive steps (cfg : Config) : World -> World -> Prop :=
| steps_refl w : steps cfg w w
| steps_cons w1 w2 w3 : step cfg w1 w2 -> steps cfg w2 w3 -> steps cfg w1 w3.

Inductive app_steps (cfg : Config) : World -> World -> Prop :=
| app_steps_refl w : app_steps cfg w w
| app_steps_cons w1 w2 w3 : app_step cfg w1 w2 -> app_steps cfg w2 w3 -> app_steps cfg w1 w3.

(** The state after [lifespan] start-up: empty queue, sweeper running,
    encoder loaded. *)
Definition initial_world (enc : Encoder) : World :=
  mkWorld [] false (fun _ => FPending) 0 [] 0 0 true (Some enc).

Definition reachable (cfg : Config) (w : World) : Prop :=
  exists enc, steps cfg (initial_world enc) w.

End Scheduler.

Arguments Ret {A} a w.
Arguments Raise {A} e w.

(** ** Input validation ([src/core/text_validator.py]) *)

(** A Python [int] as its decimal text, as an f-string prints it. *)
Definition py_str (n : Z) : string := NilZero.string_of_int (Z.to_int n).

Definition MAX_TOKEN_LENGTH : Z := 8192.
Definition MAX_CHAR_LENGTH : Z := 32768.
Definition MIN_CHAR_LENGTH : Z := 1.
Definition CHARS_PER_TOKEN_ESTIMATE : Z := 4.

Section TextValidator.

(** [str.isspace] on one character: what [str.strip()] removes and what
    the pattern [\s] matches. A text is a sequence of characters; [len]
    counts them. *)
Variable isspace : ascii -> bool.

(** [int(os.environ.get("MAX_BATCH_SIZE", 100))], read at import. *)
Variable MAX_BATCH_SIZE : Z.

Fixpoint lstrip (l : list ascii) : list ascii :=
  match l with
  | [] => []
  | c :: r => if isspace c then lstrip r else l
  end.

(** [text.strip()] *)
Definition py_strip (text : string) : list ascii :=
  rev (lstrip (rev (lstrip (list_ascii_of_string text)))).

(** [re.sub(r'\s+', ' ', s)]: every maximal run of whitespace becomes one
    space; [in_run] says the previous character was whitespace. *)
Fixpoint collapse_ws (in_run : bool) (l : list ascii) : list ascii :=
  match l with
  | [] => []
  | c :: r =>
    if isspace c then
      if in_run then collapse_ws true r else " "%char :: collapse_ws true r
    else c :: collapse_ws false r
  end.

Definition py_len (text : string) : Z := Z.of_nat (String.length text).

Definition estimate_tokens (text : string) : Z :=
  let cleaned_text := collapse_ws false (py_strip text) in
  let char_count := Z.of_nat (length cleaned_text) in
  Z.max 1 (char_count / CHARS_PER_TOKEN_ESTIMATE).

(** [validate_single_text]: [Some e] when it raises [e]. The [isinstance]
    check cannot fire on a [str]. *)
Definition validate_single_text (text : string) (text_index : nat) : option Exn :=
  let i := py_str (Z.of_nat text_index) in
  if (Z.of_nat (length (py_strip text)) <? MIN_CHAR_LENGTH)%Z then
    Some (HTTPException 400 ("Text at index " ++ i ++ " is too short (minimum "
            ++ py_str MIN_CHAR_LENGTH ++ " characters)"))
  else if (MAX_CHAR_LENGTH <? py_len text)%Z then
    Some (HTTPException 400 ("Text at index " ++ i ++ " is too long ("
            ++ py_str (py_len text) ++ " chars, maximum " ++ py_str MAX_CHAR_LENGTH ++ ")"))
  else
    let estimated_tokens := estimate_tokens text in
    if (MAX_TOKEN_LENGTH <? estimated_tokens)%Z then
      Some (HTTPException 400 ("Text at index " ++ i ++ " is too long (~"
              ++ py_str estimated_tokens ++ " tokens, maximum " ++ py_str MAX_TOKEN_LENGTH
              ++ "). Consider splitting into smaller chunks."))
    else None.

(** [for i, text in enumerate(text_list): self.validate_single_text(text, i)],
    starting at index [i]. *)
Fixpoint validate_from (i : nat) (l : list string) : option Exn :=
  match l with
  | [] => None
  | text :: rest =>
    match validate_single_text text i with
    | Some e => Some e
    | None => validate_from (S i) rest
    end
  end.

(** [validate_texts]; what follows the loop (the token total and the
    average, over a list of length at least one) only feeds the log. *)
Definition validate_texts (texts : Input) : Result (list string) :=
  match texts with
  | InList [] => Err (HTTPException 400 "Input cannot be empty")
  | _ =>
    let text_list := input_texts texts in
    if (MAX_BATCH_SIZE <? Z.of_nat (length text_list))%Z then
      Err (HTTPException 400 ("Too many texts in batch: " ++ py_str (Z.of_nat (length text_list))
             ++ " (maximum: " ++ py_str MAX_BATCH_SIZE ++ ")"))
    else
      match validate_from 0 text_list with
      | Some e => Err e
      | None => Ok text_list
      end
  end.

Definition validate_embedding_input (texts : Input) : Result (list string) :=
  validate_texts texts.

(** [get_input_stats]: [validate_texts] again, then [get_text_stats] of the
    result; the route only logs that dict, so only the validation, which
    may raise, is kept. *)
Definition get_input_stats (texts : Input) : Result (list string) :=
  validate_texts texts.

(** ** The [/v1/embeddings] route ([src/api/routes.py]), after [verify_token]
    has let the request through *)

Definition create_embeddings (token_estimate : list string -> Z) (cfg : Config) (now : Z)
  (request : EmbeddingRequest) (w : World) : World * Outcome :=
  match validate_embedding_input (input request) with
  | Err e => (w, Raised e)
  | Ok validated_texts =>
    match get_input_stats (InList validated_texts) with
    | Err e => (w, Raised e)
    | Ok _ =>
      (* request.input = validated_texts; enqueue_batch_request(...) *)
      add_request cfg now (with_input request validated_texts)
        (process_bge_embeddings token_estimate) w
    end
  end.

End TextValidator.

(** ** Auxiliary definitions for the statements *)

(** The fields [_process_batch] never writes: everything but the futures
    and the stats. *)
Definition frame (w w' : World) : Prop :=
  pending_requests w' = pending_requests w /\
  is_shutting_down w' = is_shutting_down w /\
  next_future w' = next_future w /\
  spawned w' = spawned w /\
  timeout_task_running w' = timeout_task_running w /\
  app_encoder w' = app_encoder w.

Definition out_world {A} (o : Out A) : World :=
  match o with
  | Ret _ w => w
  | Raise _ w => w
  end.

Definition keeps_frame {A} (m : M A) : Prop :=
  forall w, frame w (out_world (m w)).

(** The reading of C1 taken from the spec's words, to be compared with
    what the code delivers: a data entry handed to a member carries a
    vector kind only if that member requested it. *)
Definition carries_only_requested (req : EmbeddingRequest) (d : BGEEmbeddingData) : bool :=
  implb (if dense_embedding d then true else false) (return_dense req) &&
  implb (if sparse_embedding d then true else false) (return_sparse req) &&
  implb (if colbert_embedding d then true else false) (return_colbert req).

(** Changes of state that leave the futures of [S] alone once they are
    settled, and every other future alone in any case. *)
Definition fut_rel (S : nat -> Prop) (w w' : World) : Prop :=
  forall k, (S k -> futures w k <> FPending) -> futures w' k = futures w k.

(** Changes of state that leave [self.stats] alone. *)
Definition stats_rel (w w' : World) : Prop :=
  total_batches w' = total_batches w /\ total_requests w' = total_requests w.

Definition preserves (R : World -> World -> Prop) {A} (m : M A) : Prop :=
  forall w, R w (out_world (m w)).

(** Every entry the processor holds and has not yet run: the queue, then
    the entries of the spawned tasks that have not run yet. *)
Definition queue_items (w : World) : list BatchItem :=
  pending_requests w ++ concat (map fst (spawned w)).

(** The futures of held entries are distinct, already allocated and still
    pending; the futures not yet allocated are pending. *)
Definition futures_ok (w : World) : Prop :=
  NoDup (map future (queue_items w)) /\
  (forall item, In item (queue_items w) ->
     future item < next_future w /\ futures w (future item) = FPending) /\
  (forall k, next_future w <= k -> futures w k = FPending).

(** The shape [add_request] gives an entry: its input is a non-empty list
    of texts and [original_input_length] is the length of that list. *)
Definition well_formed_item (item : BatchItem) : Prop :=
  exists texts, input (request item) = InList texts /\ texts <> [] /\
                original_input_length item = length texts.

(** The counters of [self.stats] under [BATCH_SIZE]. *)
Definition stats_bounded (cfg : Config) (w : World) : Prop :=
  (0 <= total_batches w /\ total_batches w <= total_requests w /\
   total_requests w <= BATCH_SIZE cfg * total_batches w)%Z.

(** A text that [validate_single_text] lets through on its first two
    checks: something is left after [strip()], and at most
    [MAX_CHAR_LENGTH] characters. *)
Definition text_acceptable (isspace : ascii -> bool) (t : string) : Prop :=
  py_strip isspace t <> [] /\ (py_len t <= MAX_CHAR_LENGTH)%Z.

(** ** Concrete inputs *)

Definition te_count (texts : list string) : Z := Z.of_nat (length texts).
Definition no_validation_error (_ : BGEEmbeddingResponse) : option Exn := None.

(** An encoder that returns every kind of vector for every text. *)
Definition enc_all : Encoder :=
  fun texts => Ok (mkEncodeResult
                     (map (fun _ => Some [1.5%float]) texts)
                     (map (fun _ => Some [(3%Z, 0.5%float)]) texts)
                     (map (fun _ => Some [[1.0%float]]) texts)).

Definition enc_down : Encoder := fun _ => Err (EncoderFailure 0).

Definition req_text (s : string) (d sp c : bool) : EmbeddingRequest :=
  mkRequest "BAAI/bge-m3" (InStr s) d sp c "float" None.

Definition req_empty : EmbeddingRequest :=
  mkRequest "BAAI/bge-m3" (InList []) true true true "float" None.

Definition cfg_default : Config := mkConfig 50 8 100.
Definition cfg_pair : Config := mkConfig 50 2 100.
Definition cfg_one_slot : Config := mkConfig 1 8 100.
Definition cfg_zero : Config := mkConfig 50 0 100.

Definition w_start : World := initial_world enc_all.

Definition bge : ProcessFunc := process_bge_embeddings te_count.

(** Two requests in one batch: the first asks for dense vectors only, the
    second for sparse vectors only. *)
Definition w_dense_first : World :=
  fst (add_request cfg_pair 0 (req_text "alpha" true false false) bge w_start).
Definition w_two : World :=
  fst (add_request cfg_pair 1 (req_text "beta" false true false) bge w_dense_first).
Definition w_two_done : World :=
  match spawned w_two with
  | (batch, f) :: _ => run_batch te_count no_validation_error batch f (set_spawned [] w_two)
  | [] => w_two
  end.

(** A queue filled to [MAX_QUEUE_SIZE = 1]. *)
Definition w_full : World :=
  fst (add_request cfg_one_slot 0 (req_text "alpha" true true true) bge w_start).

(** The scenario of C3: a third request after the batch of two. *)
Definition w_three : World :=
  fst (add_request cfg_pair 2 (req_text "gamma" true true true) bge w_two).

(** One entry queued under [BATCH_SIZE = 0]: each enqueue dispatches an
    empty batch and the entry stays queued. *)
Definition w_zero : World :=
  fst (add_request cfg_zero 0 (req_text "alpha" true true true) bge w_start).

(** The two queue entries of [w_two], written out. *)
Definition item_alpha : BatchItem :=
  mkItem (with_input (req_text "alpha" true false false) ["alpha"]) 0 0 1.
Definition item_beta : BatchItem :=
  mkItem (with_input (req_text "beta" false true false) ["beta"]) 1 1 1.

(** One entry queued under the default configuration. *)
Definition w_queued : World :=
  fst (add_request cfg_default 0 (req_text "alpha" true true true) bge w_start).

(** The entry [w_queued] holds, written out. *)
Definition item_alpha_all : BatchItem :=
  mkItem (with_input (req_text "alpha" true true true) ["alpha"]) 0 0 1.

(** [str.isspace] on the characters of Latin-1. *)
Definition py_isspace (c : ascii) : bool :=
  match nat_of_ascii c with
  | 9 | 10 | 11 | 12 | 13 | 28 | 29 | 30 | 31 | 32 | 133 | 160 => true
  | _ => false
  end.

(** ** Proofs *)

(** *** The executor only writes futures and stats *)

Lemma frame_refl : forall w, frame w w.
Proof. intro w; repeat split. Qed.

Lemma frame_trans : forall w1 w2 w3, frame w1 w2 -> frame w2 w3 -> frame w1 w3.
Proof.
  unfold frame; intros w1 w2 w3 H12 H23; intuition congruence.
Qed.

Lemma frame_set_future : forall fid st w, frame w (set_future fid st w).
Proof. intros; repeat split. Qed.

Lemma frame_set_stats : forall b r w, frame w (set_stats b r w).
Proof. intros; repeat split. Qed.

Create HintDb frame.
#[local] Hint Resolve frame_refl frame_set_future frame_set_stats : frame.

Lemma keeps_ret : forall A (a : A), keeps_frame (ret a).
Proof. intros A a w; apply frame_refl. Qed.

Lemma keeps_raise : forall A e, keeps_frame (@raise A e).
Proof. intros A e w; apply frame_refl. Qed.

Lemma keeps_get : keeps_frame get.
Proof. intro w; apply frame_refl. Qed.

Lemma keeps_bind : forall A B (m : M A) (k : A -> M B),
  keeps_frame m -> (forall a, keeps_frame (k a)) -> keeps_frame (bind m k).
Proof.
  intros A B m k Hm Hk w; unfold bind.
  specialize (Hm w); destruct (m w) as [a w1 | e w1]; simpl in *.
  - exact (frame_trans _ _ _ Hm (Hk a w1)).
  - exact Hm.
Qed.

Lemma keeps_try : forall A (m : M A) (h : Exn -> M A),
  keeps_frame m -> (forall e, keeps_frame (h e)) -> keeps_frame (try_except m h).
Proof.
  intros A m h Hm Hh w; unfold try_except.
  specialize (Hm w); destruct (m w) as [a w1 | e w1]; simpl in *.
  - exact Hm.
  - exact (frame_trans _ _ _ Hm (Hh e w1)).
Qed.

Lemma keeps_set_result : forall fid r, keeps_frame (set_result fid r).
Proof.
  intros fid r w; unfold set_result; destruct (futures w fid); simpl; auto with frame.
Qed.

Lemma keeps_set_exception : forall fid e, keeps_frame (set_exception fid e).
Proof.
  intros fid e w; unfold set_exception; destruct (futures w fid); simpl; auto with frame.
Qed.

Lemma keeps_done : forall fid, keeps_frame (done fid).
Proof. intros fid w; apply frame_refl. Qed.

#[local] Hint Resolve keeps_ret keeps_raise keeps_get keeps_bind keeps_try
  keeps_set_result keeps_set_exception keeps_done : frame.

Lemma keeps_resolve_members : forall te vr br members,
  keeps_frame (resolve_members te vr br members).
Proof.
  intros te vr br members; induction members as [| [item [s e]] rest IH]; simpl.
  - auto with frame.
  - apply keeps_bind; [| intros; exact IH].
    unfold resolve_member; apply keeps_try; [| auto with frame].
    destruct (vr _); auto with frame.
Qed.

Lemma keeps_fail_all : forall e batch, keeps_frame (fail_all e batch).
Proof.
  intros e batch; induction batch as [| item rest IH]; simpl.
  - auto with frame.
  - apply keeps_bind; [auto with frame | intros d].
    apply keeps_bind; [destruct d; auto with frame | intros; exact IH].
Qed.

Lemma keeps_process_batch : forall te vr batch pf,
  keeps_frame (process_batch te vr batch pf).
Proof.
  intros te vr batch pf; unfold process_batch.
  apply keeps_try; [| intros; apply keeps_fail_all].
  destruct batch as [| first rest]; [auto with frame |].
  apply keeps_bind; [auto with frame | intros w0].
  destruct (app_encoder w0) as [enc |]; [| auto with frame].
  destruct (pf _ _) as [br | e]; [| auto with frame].
  apply keeps_bind; [apply keeps_resolve_members | intros _].
  intro w; apply frame_set_stats.
Qed.

Lemma run_batch_frame : forall te vr batch pf w,
  frame w (run_batch te vr batch pf w).
Proof.
  intros te vr batch pf w; unfold run_batch.
  pose proof (keeps_process_batch te vr batch pf w) as H.
  destruct (process_batch te vr batch pf w); exact H.
Qed.

(** *** Offsets of the members in the concatenated text list *)

Lemma boundaries_from_length : forall batch c,
  length (boundaries_from c batch) = length batch.
Proof.
  induction batch as [| item rest IH]; intro c; simpl; [reflexivity | now rewrite IH].
Qed.

Lemma boundaries_from_head : forall batch c s e,
  nth_error (boundaries_from c batch) 0 = Some (s, e) -> s = c.
Proof.
  intros [| item rest] c s e H; simpl in H; [discriminate | now inversion H].
Qed.

(** The [i]-th range starts after the texts of the members before it and
    spans the texts of the [i]-th member. *)
Lemma boundaries_from_nth : forall batch c i s e,
  nth_error (boundaries_from c batch) i = Some (s, e) ->
  exists before item after,
    batch = before ++ item :: after /\ length before = i /\
    s = c + length (concat (map item_texts before)) /\
    e = s + length (item_texts item).
Proof.
  induction batch as [| x rest IH]; intros c i s e H; [destruct i; discriminate |].
  destruct i as [| i]; simpl in H.
  - inversion H; subst. exists [], x, rest; simpl; repeat split; lia.
  - destruct (IH _ _ _ _ H) as (before & item & after & Hb & Hl & Hs & He).
    exists (x :: before), item, after; simpl.
    subst rest i; split; [reflexivity |]; split; [reflexivity |].
    rewrite length_app; split; lia.
Qed.

Lemma boundaries_from_consecutive : forall batch c i s1 e1 s2 e2,
  nth_error (boundaries_from c batch) i = Some (s1, e1) ->
  nth_error (boundaries_from c batch) (S i) = Some (s2, e2) ->
  s2 = e1.
Proof.
  induction batch as [| x rest IH]; intros c i s1 e1 s2 e2 H1 H2;
    [destruct i; discriminate |].
  destruct i as [| i]; simpl in H1, H2.
  - inversion H1; subst. exact (boundaries_from_head _ _ _ _ H2).
  - exact (IH _ _ _ _ _ _ H1 H2).
Qed.

Lemma boundaries_from_last : forall batch c i s e,
  nth_error (boundaries_from c batch) i = Some (s, e) ->
  S i = length batch ->
  e = c + length (concat (map item_texts batch)).
Proof.
  induction batch as [| x rest IH]; intros c i s e H Hlen; [destruct i; discriminate |].
  destruct i as [| i]; simpl in H, Hlen.
  - destruct rest; [| discriminate].
    inversion H; subst; simpl; rewrite app_nil_r; reflexivity.
  - injection Hlen as Hlen.
    rewrite (IH _ _ _ _ H Hlen); simpl; rewrite length_app; lia.
Qed.

Lemma firstn_length_app : forall A (l m : list A), firstn (length l) (l ++ m) = l.
Proof. induction l as [| x l IH]; intro m; simpl; [reflexivity | now rewrite IH]. Qed.

Lemma skipn_length_app : forall A (l m : list A), skipn (length l) (l ++ m) = m.
Proof. induction l as [| x l IH]; intro m; simpl; [reflexivity | now rewrite IH]. Qed.

(** The slice a member is given is exactly its own texts. *)
Lemma request_boundaries_slice : forall batch i s e,
  nth_error (request_boundaries batch) i = Some (s, e) ->
  exists item, nth_error batch i = Some item /\
    e = s + length (item_texts item) /\
    py_slice s e (all_texts batch) = item_texts item.
Proof.
  intros batch i s e H.
  destruct (boundaries_from_nth _ _ _ _ _ H) as (before & item & after & Hb & Hl & Hs & He).
  exists item; subst batch; split; [| split; [exact He |]].
  - rewrite nth_error_app2 by lia; rewrite Hl, Nat.sub_diag; reflexivity.
  - unfold py_slice, all_texts; rewrite map_app, concat_app; simpl.
    subst e s; simpl.
    rewrite skipn_length_app.
    replace (length (concat (map item_texts before)) + length (item_texts item)
             - length (concat (map item_texts before))) with (length (item_texts item)) by lia.
    apply firstn_length_app.
Qed.

(** C5: the offset ranges recorded while concatenating the members' text
    lists are in entry order, contiguous (each starts where the previous
    one ends), non-overlapping, the first starts at 0 and the last ends at
    the length of the combined list; each range holds exactly its member's
    texts. *)
Theorem request_boundaries_partition : forall batch,
  let bs := request_boundaries batch in
  length bs = length batch /\
  (forall s e, nth_error bs 0 = Some (s, e) -> s = 0) /\
  (forall i s1 e1 s2 e2,
      nth_error bs i = Some (s1, e1) -> nth_error bs (S i) = Some (s2, e2) -> s2 = e1) /\
  (forall i s e, nth_error bs i = Some (s, e) -> s <= e) /\
  (forall i s e, nth_error bs i = Some (s, e) -> S i = length batch ->
      e = length (all_texts batch)) /\
  (forall i item s e, nth_error batch i = Some item -> nth_error bs i = Some (s, e) ->
      py_slice s e (all_texts batch) = item_texts item).
Proof.
  intros batch bs; unfold bs, request_boundaries.
  split; [apply boundaries_from_length |].
  split; [intros s e H; exact (boundaries_from_head _ _ _ _ H) |].
  split; [intros i s1 e1 s2 e2 H1 H2; exact (boundaries_from_consecutive _ _ _ _ _ _ _ H1 H2) |].
  split.
  { intros i s e H; destruct (boundaries_from_nth _ _ _ _ _ H) as (? & ? & ? & _ & _ & _ & He); lia. }
  split; [intros i s e H Hl; exact (boundaries_from_last _ _ _ _ _ H Hl) |].
  intros i item s e Hi H.
  destruct (request_boundaries_slice _ _ _ _ H) as (item' & Hi' & _ & Hsl).
  rewrite Hi in Hi'; injection Hi' as ->; exact Hsl.
Qed.

(** *** Resolution of the members' futures *)

Lemma fail_all_futures : forall e batch w,
  exists w', fail_all e batch w = Ret tt w' /\
    forall k, futures w' k =
      if existsb (Nat.eqb k) (map future batch)
      then match futures w k with FPending => FError e | st => st end
      else futures w k.
Proof.
  intros e batch; induction batch as [| item rest IH]; intro w.
  - exists w; split; reflexivity.
  - simpl; unfold bind at 1, done.
    destruct (futures w (future item)) eqn:Hf.
    + unfold bind, set_exception; rewrite Hf.
      destruct (IH (set_future (future item) (FError e) w)) as (w' & Hrun & Hw').
      exists w'; split; [exact Hrun |].
      intro k; rewrite Hw'; simpl.
      destruct (Nat.eqb k (future item)) eqn:Hk; simpl.
      * apply Nat.eqb_eq in Hk; subst k; rewrite Hf.
        destruct (existsb _ _); reflexivity.
      * reflexivity.
    + unfold bind, ret.
      destruct (IH w) as (w' & Hrun & Hw'); exists w'; split; [exact Hrun |].
      intro k; rewrite Hw'.
      destruct (Nat.eqb k (future item)) eqn:Hk; simpl; [| reflexivity].
      apply Nat.eqb_eq in Hk; subst k; rewrite Hf; destruct (existsb _ _); reflexivity.
    + unfold bind, ret.
      destruct (IH w) as (w' & Hrun & Hw'); exists w'; split; [exact Hrun |].
      intro k; rewrite Hw'.
      destruct (Nat.eqb k (future item)) eqn:Hk; simpl; [| reflexivity].
      apply Nat.eqb_eq in Hk; subst k; rewrite Hf; destruct (existsb _ _); reflexivity.
Qed.

Lemma set_future_same : forall fid st w, futures (set_future fid st w) fid = st.
Proof. intros; simpl; now rewrite Nat.eqb_refl. Qed.

Lemma set_future_other : forall fid st w k, k <> fid -> futures (set_future fid st w) k = futures w k.
Proof. intros fid st w k Hk; simpl; apply Nat.eqb_neq in Hk; now rewrite Hk. Qed.

(** One member: its future gets the assembled response, or the exception
    its assembly raised. *)
Lemma resolve_member_pending : forall te vr br item s e w,
  futures w (future item) = FPending ->
  resolve_member te vr br item s e w =
  Ret tt (set_future (future item)
            (match vr (individual_result te br item s e) with
             | Some ex => FError ex
             | None => FResult (individual_result te br item s e)
             end) w).
Proof.
  intros te vr br item s e w Hp; unfold resolve_member, try_except.
  destruct (vr _) as [ex |].
  - unfold raise, set_exception; rewrite Hp; reflexivity.
  - unfold set_result; rewrite Hp; reflexivity.
Qed.

Lemma resolve_members_futures : forall te vr br members w,
  NoDup (map (fun m => future (fst m)) members) ->
  (forall m, In m members -> futures w (future (fst m)) = FPending) ->
  exists w', resolve_members te vr br members w = Ret tt w' /\
    (forall item s e, In (item, (s, e)) members ->
       futures w' (future item) =
       match vr (individual_result te br item s e) with
       | Some ex => FError ex
       | None => FResult (individual_result te br item s e)
       end) /\
    (forall k, ~ In k (map (fun m => future (fst m)) members) -> futures w' k = futures w k).
Proof.
  intros te vr br members; induction members as [| [item [s e]] rest IH]; intros w Hnd Hp.
  - exists w; split; [reflexivity |]; split; [intros ? ? ? [] | reflexivity].
  - simpl in Hnd; inversion Hnd as [| ? ? Hnin Hnd']; subst.
    simpl; unfold bind at 1.
    rewrite (resolve_member_pending te vr br item s e w (Hp _ (or_introl eq_refl))).
    set (w1 := set_future _ _ w).
    assert (Hp1 : forall m, In m rest -> futures w1 (future (fst m)) = FPending).
    { intros m Hm; unfold w1; rewrite set_future_other.
      - apply Hp; right; exact Hm.
      - intro Heq; apply Hnin; rewrite <- Heq;
        apply (in_map (fun m => future (fst m))); exact Hm. }
    destruct (IH w1 Hnd' Hp1) as (w' & Hrun & Hin & Hout).
    exists w'; split; [exact Hrun |]; split.
    + intros item' s' e' [Heq | Hm].
      * injection Heq as -> -> ->.
        rewrite (Hout _ Hnin); unfold w1; apply set_future_same.
      * exact (Hin _ _ _ Hm).
    + intros k Hk; simpl in Hk.
      rewrite (Hout k (fun H => Hk (or_intror H))).
      unfold w1; apply set_future_other; intro; apply Hk; left; congruence.
Qed.

Lemma map_fst_combine_eq : forall A B (l1 : list A) (l2 : list B),
  length l1 = length l2 -> map fst (combine l1 l2) = l1.
Proof.
  induction l1 as [| x l1 IH]; intros [| y l2] H; simpl in *; try discriminate; [reflexivity |].
  rewrite IH; [reflexivity | lia].
Qed.

Lemma in_combine_nth : forall A B (l1 : list A) (l2 : list B) i a b,
  nth_error l1 i = Some a -> nth_error l2 i = Some b -> In (a, b) (combine l1 l2).
Proof.
  induction l1 as [| x l1 IH]; intros [| y l2] i a b H1 H2;
    destruct i; simpl in *; try discriminate.
  - left; congruence.
  - right; exact (IH _ _ _ _ H1 H2).
Qed.

Lemma existsb_future_in : forall item batch,
  In item batch -> existsb (Nat.eqb (future item)) (map future batch) = true.
Proof.
  intros item batch H; apply existsb_exists; exists (future item); split.
  - apply in_map; exact H.
  - apply Nat.eqb_refl.
Qed.

Lemma run_batch_err_futures : forall te vr first rest pf w enc ex,
  app_encoder w = Some enc ->
  (forall item, In item (first :: rest) -> futures w (future item) = FPending) ->
  pf (with_input (request first) (all_texts (first :: rest))) (Some enc) = Err ex ->
  forall item, In item (first :: rest) ->
    futures (run_batch te vr (first :: rest) pf w) (future item) = FError ex.
Proof.
  intros te vr first rest pf w enc ex Henc Hp Hpf item Hin.
  unfold run_batch, process_batch, try_except, bind at 1, get; cbv beta iota zeta.
  rewrite Henc, Hpf; unfold raise.
  destruct (fail_all_futures ex (first :: rest) w) as (w2 & Hrun & Hw2).
  rewrite Hrun, Hw2, (existsb_future_in _ _ Hin), (Hp _ Hin); reflexivity.
Qed.

Lemma run_batch_ok_futures : forall te vr first rest pf w enc br,
  NoDup (map future (first :: rest)) ->
  (forall item, In item (first :: rest) -> futures w (future item) = FPending) ->
  app_encoder w = Some enc ->
  pf (with_input (request first) (all_texts (first :: rest))) (Some enc) = Ok br ->
  forall i item s e,
    nth_error (first :: rest) i = Some item ->
    nth_error (request_boundaries (first :: rest)) i = Some (s, e) ->
    futures (run_batch te vr (first :: rest) pf w) (future item) =
    match vr (individual_result te br item s e) with
    | Some ex => FError ex
    | None => FResult (individual_result te br item s e)
    end.
Proof.
  intros te vr first rest pf w enc br Hnd Hp Henc Hpf i item s e Hi Hb.
  set (batch := first :: rest) in *.
  assert (Hlen : length batch = length (request_boundaries batch))
    by (symmetry; apply boundaries_from_length).
  assert (Hnd' : NoDup (map (fun m => future (fst m)) (combine batch (request_boundaries batch)))).
  { rewrite <- (map_map fst future), map_fst_combine_eq by exact Hlen; exact Hnd. }
  assert (Hp' : forall m, In m (combine batch (request_boundaries batch)) ->
                  futures w (future (fst m)) = FPending).
  { intros [it b] Hm; apply Hp; exact (in_combine_l _ _ _ _ Hm). }
  destruct (resolve_members_futures te vr br _ w Hnd' Hp') as (w2 & Hrun & Hin & _).
  unfold run_batch, process_batch, try_except, bind at 1, get; unfold batch at 1; cbv beta iota zeta.
  rewrite Henc, Hpf; unfold bind.
  rewrite Hrun; simpl.
  exact (Hin _ _ _ (in_combine_nth _ _ _ _ _ _ _ Hi Hb)).
Qed.

(** C2: once a batch is dispatched, if the shared call fails with [ex]
    every member's future fails with [ex] (none succeeds); if it succeeds,
    each member's future is settled by its own assembly alone: it fails
    with the exception that assembly raised, or receives the assembled
    response, whatever happens to its siblings. *)
Theorem process_batch_failure_isolation : forall te vr first rest pf w enc,
  NoDup (map future (first :: rest)) ->
  (forall item, In item (first :: rest) -> futures w (future item) = FPending) ->
  app_encoder w = Some enc ->
  let batch := first :: rest in
  let w' := run_batch te vr batch pf w in
  (forall ex, pf (with_input (request first) (all_texts batch)) (Some enc) = Err ex ->
     forall item, In item batch -> futures w' (future item) = FError ex) /\
  (forall br, pf (with_input (request first) (all_texts batch)) (Some enc) = Ok br ->
     forall i item s e,
       nth_error batch i = Some item ->
       nth_error (request_boundaries batch) i = Some (s, e) ->
       futures w' (future item) =
       match vr (individual_result te br item s e) with
       | Some ex => FError ex
       | None => FResult (individual_result te br item s e)
       end).
Proof.
  intros te vr first rest pf w enc Hnd Hp Henc; cbv zeta; split.
  - intros ex Hpf; exact (run_batch_err_futures te vr first rest pf w enc ex Henc Hp Hpf).
  - intros br Hpf; exact (run_batch_ok_futures te vr first rest pf w enc br Hnd Hp Henc Hpf).
Qed.

(** *** The response a member receives *)

Lemma length_py_slice : forall A s e (l : list A),
  length (py_slice s e l) = Nat.min (e - s) (length l - s).
Proof. intros; unfold py_slice; rewrite length_firstn, length_skipn; reflexivity. Qed.

Lemma length_reindex_from : forall l k, length (reindex_from k l) = length l.
Proof. induction l as [| d l IH]; intro k; simpl; [reflexivity | now rewrite IH]. Qed.

Lemma nth_reindex_from : forall l k j d,
  nth_error (reindex_from k l) j = Some d ->
  exists d0, nth_error l j = Some d0 /\
    d = mkData (k + j) (dense_embedding d0) (sparse_embedding d0) (colbert_embedding d0).
Proof.
  induction l as [| d0 l IH]; intros k j d H; [destruct j; discriminate |].
  destruct j as [| j]; simpl in H.
  - injection H as <-; exists d0; split; [reflexivity | now rewrite Nat.add_0_r].
  - destruct (IH _ _ _ H) as (d1 & H1 & ->); exists d1; split; [exact H1 |].
    now rewrite Nat.add_succ_r.
Qed.

Lemma nth_py_slice_seq : forall A (f : nat -> A) s e N j x,
  nth_error (py_slice s e (map f (seq 0 N))) j = Some x -> x = f (s + j).
Proof.
  intros A f s e N j x H; unfold py_slice in H.
  rewrite skipn_map, firstn_map, nth_error_map, skipn_seq in H.
  rewrite nth_error_firstn, nth_error_seq in H.
  destruct (Nat.ltb j (e - s)), (Nat.ltb j (N - s)); simpl in H; try discriminate.
  injection H as <-; reflexivity.
Qed.

(** The shared call made by [process_bge_embeddings] on the combined
    request: one data entry per text, filtered by the combined flags. *)
Lemma process_bge_combined : forall te req texts enc out,
  enc texts = Ok out ->
  (return_dense req || return_sparse req || return_colbert req) = true ->
  exists br,
    process_bge_embeddings te (with_input req texts) (Some enc) = Ok br /\
    data br = map (bge_data (return_dense req) (return_sparse req) (return_colbert req) out)
                (seq 0 (length texts)).
Proof.
  intros te req texts enc out Henc Hflags.
  destruct texts as [| t ts]; unfold process_bge_embeddings; simpl.
  - eexists; split; reflexivity.
  - rewrite Hflags; simpl; rewrite Henc; eexists; split; reflexivity.
Qed.

(** C1 (as the code does it): when the shared call of a batch succeeds,
    each member's future receives (unless its own assembly raises) a
    response whose data is its own slice of the combined result,
    renumbered from 0, whose usage is estimated from its own texts and
    whose [embedding_types] lists the kinds it requested itself; the
    vectors in that slice are those of the combined call, filtered by the
    flags of the FIRST member of the batch. *)
Theorem process_batch_member_response : forall te vr first rest w enc out i item s e,
  NoDup (map future (first :: rest)) ->
  (forall x, In x (first :: rest) -> futures w (future x) = FPending) ->
  app_encoder w = Some enc ->
  enc (all_texts (first :: rest)) = Ok out ->
  (return_dense (request first) || return_sparse (request first)
   || return_colbert (request first)) = true ->
  nth_error (first :: rest) i = Some item ->
  nth_error (request_boundaries (first :: rest)) i = Some (s, e) ->
  exists r,
    futures (run_batch te vr (first :: rest) (process_bge_embeddings te) w) (future item) =
      match vr r with Some ex => FError ex | None => FResult r end /\
    length (data r) = length (item_texts item) /\
    (forall j d, nth_error (data r) j = Some d ->
       index d = j /\
       dense_embedding d =
         (if return_dense (request first) then vec_at (dense_vecs out) (s + j) else None) /\
       sparse_embedding d =
         (if return_sparse (request first) then vec_at (lexical_weights out) (s + j) else None) /\
       colbert_embedding d =
         (if return_colbert (request first) then vec_at (colbert_vecs out) (s + j) else None)) /\
    prompt_tokens r = te (item_texts item) /\
    total_tokens r = te (item_texts item) /\
    embedding_types r =
      requested_types (return_dense (request item)) (return_sparse (request item))
        (return_colbert (request item)).
Proof.
  intros te vr first rest w enc out i item s e Hnd Hp Henc Hout Hflags Hi Hb.
  destruct (process_bge_combined te (request first) _ enc out Hout Hflags) as (br & Hpf & Hdata).
  exists (individual_result te br item s e).
  split; [exact (run_batch_ok_futures te vr first rest _ w enc br Hnd Hp Henc Hpf i item s e Hi Hb) |].
  destruct (request_boundaries_slice _ _ _ _ Hb) as (item' & Hi' & He & Hsl).
  rewrite Hi in Hi'; injection Hi' as <-.
  unfold individual_result; simpl.
  split.
  { rewrite length_reindex_from, length_py_slice, Hdata, length_map, length_seq.
    rewrite <- Hsl, length_py_slice; reflexivity. }
  split; [| repeat split].
  intros j d Hd.
  destruct (nth_reindex_from _ _ _ _ Hd) as (d0 & Hd0 & ->).
  rewrite Hdata in Hd0; apply nth_py_slice_seq in Hd0; subst d0.
  unfold bge_data; simpl; repeat split.
Qed.

(** *** Enqueue and the dispatch decision *)

Lemma firstn_min_length : forall A n (l : list A),
  firstn n l = firstn (Nat.min n (length l)) l.
Proof.
  intros A n l; destruct (Nat.le_ge_cases n (length l)) as [H | H].
  - now rewrite Nat.min_l.
  - rewrite Nat.min_r by exact H; rewrite firstn_all2 by exact H; symmetry; apply firstn_all.
Qed.

Lemma skipn_min_length : forall A n (l : list A),
  skipn n l = skipn (Nat.min n (length l)) l.
Proof.
  intros A n l; destruct (Nat.le_ge_cases n (length l)) as [H | H].
  - now rewrite Nat.min_l.
  - rewrite Nat.min_r by exact H; rewrite skipn_all2 by exact H; symmetry; apply skipn_all.
Qed.

Lemma py_index_nonneg : forall k n, (0 <= k)%Z -> py_index k n = Z.to_nat k.
Proof.
  intros k n Hk; unfold py_index; destruct (Z.ltb_spec k 0); [lia | reflexivity].
Qed.

Lemma should_process_iff : forall cfg now q,
  should_process cfg now q = true <->
  ((BATCH_SIZE cfg <= Z.of_nat (length q))%Z \/
   exists oldest, hd_error q = Some oldest /\ (BATCH_TIMEOUT_MS cfg <= now - timestamp oldest)%Z).
Proof.
  intros cfg now q; unfold should_process, oldest_is_stale.
  rewrite orb_true_iff, Z.leb_le.
  destruct q as [| oldest older]; simpl.
  - split; [intros [H | H]; [left; exact H | discriminate] |].
    intros [H | (o & Ho & _)]; [left; exact H | discriminate].
  - rewrite Z.leb_le; split.
    + intros [H | H]; [left; exact H | right; exists oldest; split; [reflexivity | exact H]].
    + intros [H | (o & Ho & H)]; [left; exact H | right; injection Ho as <-; exact H].
Qed.

(** A request that passes the shutdown check, is not the empty list and
    finds room in the queue. *)
Lemma add_request_accepted : forall cfg now req pf w,
  is_shutting_down w = false ->
  input req <> InList [] ->
  (Z.of_nat (length (pending_requests w)) < MAX_QUEUE_SIZE cfg)%Z ->
  let item := mkItem (with_input req (input_texts (input req))) (next_future w) now
                (length (input_texts (input req))) in
  let q := pending_requests w ++ [item] in
  let w1 := set_future (next_future w) FPending (set_next_future (S (next_future w)) w) in
  add_request cfg now req pf w =
  (if should_process cfg now q then
     (create_task (py_take (BATCH_SIZE cfg) q) pf (set_pending (py_drop (BATCH_SIZE cfg) q) w1),
      Awaiting (next_future w))
   else (set_pending q w1, Awaiting (next_future w))).
Proof.
  intros cfg now req pf w Hshut Hne Hcap; cbv zeta.
  unfold add_request; rewrite Hshut.
  assert (Hleb : (MAX_QUEUE_SIZE cfg <=? Z.of_nat (length (pending_requests w)))%Z = false)
    by (apply Z.leb_gt; exact Hcap).
  destruct (input req) as [s | [| x l]] eqn:Hin; [| contradiction |];
    simpl pending_requests; rewrite Hleb; reflexivity.
Qed.

(** The capacity check, for a request that gets that far. *)
Lemma add_request_full : forall cfg now req pf w,
  is_shutting_down w = false ->
  input req <> InList [] ->
  (MAX_QUEUE_SIZE cfg <= Z.of_nat (length (pending_requests w)))%Z ->
  add_request cfg now req pf w =
  (set_future (next_future w) FPending (set_next_future (S (next_future w)) w),
   Raised CAPACITY_ERROR).
Proof.
  intros cfg now req pf w Hshut Hne Hfull.
  unfold add_request; rewrite Hshut.
  assert (Hleb : (MAX_QUEUE_SIZE cfg <=? Z.of_nat (length (pending_requests w)))%Z = true)
    by (apply Z.leb_le; exact Hfull).
  destruct (input req) as [s | [| x l]] eqn:Hin; [| contradiction |];
    simpl pending_requests; rewrite Hleb; reflexivity.
Qed.

(** C3: after an accepted enqueue, in the same atomic step, a batch is
    dispatched exactly when the queue has reached [BATCH_SIZE] entries or
    its oldest entry is at least [BATCH_TIMEOUT_MS] old; the batch is the
    first [min(BATCH_SIZE, len(queue))] entries in arrival order and the
    rest stays queued; otherwise nothing is dispatched. *)
Theorem add_request_dispatch : forall cfg now req pf w w' o,
  (0 <= BATCH_SIZE cfg)%Z ->
  is_shutting_down w = false ->
  input req <> InList [] ->
  (Z.of_nat (length (pending_requests w)) < MAX_QUEUE_SIZE cfg)%Z ->
  add_request cfg now req pf w = (w', o) ->
  let item := mkItem (with_input req (input_texts (input req))) (next_future w) now
                (length (input_texts (input req))) in
  let q := pending_requests w ++ [item] in
  let k := Nat.min (Z.to_nat (BATCH_SIZE cfg)) (length q) in
  o = Awaiting (next_future w) /\
  (((BATCH_SIZE cfg <= Z.of_nat (length q))%Z \/
    exists oldest, hd_error q = Some oldest /\
                   (BATCH_TIMEOUT_MS cfg <= now - timestamp oldest)%Z) ->
   spawned w' = spawned w ++ [(firstn k q, pf)] /\ pending_requests w' = skipn k q) /\
  (~ ((BATCH_SIZE cfg <= Z.of_nat (length q))%Z \/
      exists oldest, hd_error q = Some oldest /\
                     (BATCH_TIMEOUT_MS cfg <= now - timestamp oldest)%Z) ->
   spawned w' = spawned w /\ pending_requests w' = q).
Proof.
  intros cfg now req pf w w' o Hbs Hshut Hne Hcap Hadd; cbv zeta.
  rewrite (add_request_accepted cfg now req pf w Hshut Hne Hcap) in Hadd; cbv zeta in Hadd.
  set (q := pending_requests w ++ _) in *.
  destruct (should_process cfg now q) eqn:Hsp; injection Hadd as <- <-.
  - split; [reflexivity |]; split.
    + intros _; unfold py_take, py_drop; rewrite !py_index_nonneg by exact Hbs.
      simpl; rewrite <- firstn_min_length, <- skipn_min_length; split; reflexivity.
    + intros Hnot; exfalso; apply Hnot, should_process_iff, Hsp.
  - split; [reflexivity |]; split.
    + intros Hdue; apply should_process_iff in Hdue; congruence.
    + intros _; split; reflexivity.
Qed.

(** C4 (as the code does it): an enqueue attempt with a non-empty input,
    made while not shutting down, that finds [MAX_QUEUE_SIZE] or more
    entries queued fails with the capacity error; the queue and the
    spawned batches are unchanged and the caller does not wait on a
    future. *)
Theorem add_request_capacity_rejects : forall cfg now req pf w w' o,
  is_shutting_down w = false ->
  input req <> InList [] ->
  (MAX_QUEUE_SIZE cfg <= Z.of_nat (length (pending_requests w)))%Z ->
  add_request cfg now req pf w = (w', o) ->
  o = Raised CAPACITY_ERROR /\
  pending_requests w' = pending_requests w /\
  spawned w' = spawned w.
Proof.
  intros cfg now req pf w w' o Hshut Hne Hfull Hadd.
  rewrite (add_request_full cfg now req pf w Hshut Hne Hfull) in Hadd.
  injection Hadd as <- <-; repeat split.
Qed.

(** C10: an empty input list, while not shutting down, bypasses the queue:
    the state is untouched (no entry, no future, no task), the processing
    function is called with no encoder, and with [process_bge_embeddings]
    the answer is an empty response with zero token counts whose
    [embedding_types] follow the request's flags. *)
Theorem empty_input_bypasses_queue : forall te cfg now req w,
  is_shutting_down w = false ->
  input req = InList [] ->
  (forall pf, add_request cfg now req pf w = (w, of_result (pf req None))) /\
  add_request cfg now req (process_bge_embeddings te) w =
  (w, Returned (mkResponse [] (model req) 0 0
                 (requested_types (return_dense req) (return_sparse req)
                    (return_colbert req)))).
Proof.
  intros te cfg now req w Hshut Hin; split.
  - intro pf; unfold add_request; rewrite Hshut, Hin; reflexivity.
  - unfold add_request, process_bge_embeddings; rewrite Hshut, Hin; reflexivity.
Qed.

(** *** Every step, seen from the queue *)

Lemma add_request_shape : forall cfg now req pf w w' o,
  add_request cfg now req pf w = (w', o) ->
  is_shutting_down w' = is_shutting_down w /\
  ((pending_requests w' = pending_requests w /\ spawned w' = spawned w) \/
   (is_shutting_down w = false /\
    exists item,
      (should_process cfg now (pending_requests w ++ [item]) = true /\
       pending_requests w' = py_drop (BATCH_SIZE cfg) (pending_requests w ++ [item]) /\
       spawned w' = spawned w ++ [(py_take (BATCH_SIZE cfg) (pending_requests w ++ [item]), pf)]) \/
      (should_process cfg now (pending_requests w ++ [item]) = false /\
       pending_requests w' = pending_requests w ++ [item] /\ spawned w' = spawned w))).
Proof.
  intros cfg now req pf w w' o H; unfold add_request in H.
  destruct (is_shutting_down w) eqn:Hs.
  { injection H as <- _; split; [exact Hs | left; split; reflexivity]. }
  destruct (input req) as [s | [| x l]];
    [| injection H as <- _; split; [exact Hs | left; split; reflexivity] |];
    simpl pending_requests in H;
    (destruct (_ <=? _)%Z;
     [injection H as <- _; split; [exact Hs | left; split; reflexivity] |]);
    (destruct (should_process _ _ _) eqn:Hsp; injection H as <- _;
     (split; [exact Hs | right; split; [reflexivity | eexists]]);
     [left; repeat split; exact Hsp | right; repeat split; exact Hsp]).
Qed.

(** The bound kept by every step when [BATCH_SIZE >= 1]: fewer than
    [BATCH_SIZE] entries wait, and no spawned batch holds more than
    [BATCH_SIZE] entries. *)
Lemma step_keeps_bound : forall te vr cfg w w',
  (0 < BATCH_SIZE cfg)%Z ->
  step te vr cfg w w' ->
  (Z.of_nat (length (pending_requests w)) < BATCH_SIZE cfg)%Z ->
  (forall b f, In (b, f) (spawned w) -> (Z.of_nat (length b) <= BATCH_SIZE cfg)%Z) ->
  (Z.of_nat (length (pending_requests w')) < BATCH_SIZE cfg)%Z /\
  (forall b f, In (b, f) (spawned w') -> (Z.of_nat (length b) <= BATCH_SIZE cfg)%Z).
Proof.
  intros te vr cfg w w' Hbs Hstep Hq Hsp.
  destruct Hstep as [w w' Happ | w].
  - destruct Happ as [now req pf w w' o Hadd | now w _ | pre batch pf post w Hspw | w].
    + destruct (add_request_shape _ _ _ _ _ _ _ Hadd) as (_ & [[-> ->] | (_ & item & [(Hp & -> & ->) | (Hp & -> & ->)])]);
        [split; assumption | |].
      * assert (Hlen : (Z.of_nat (length (pending_requests w ++ [item])) <= BATCH_SIZE cfg)%Z)
          by (rewrite length_app; simpl; lia).
        unfold py_take, py_drop; rewrite !py_index_nonneg by lia.
        split.
        -- rewrite skipn_all2 by lia; simpl; lia.
        -- intros b f Hin; apply in_app_or in Hin as [Hin | [Heq | []]];
             [exact (Hsp _ _ Hin) |].
           injection Heq as <- _; rewrite length_firstn; lia.
      * unfold should_process in Hp; apply orb_false_iff in Hp as [Hp _].
        apply Z.leb_gt in Hp; split; [exact Hp | exact Hsp].
    + unfold sweeper_tick; destruct (pending_requests w) as [| oldest older] eqn:Hpw;
        [split; [rewrite Hpw; exact Hq | exact Hsp] |].
      destruct (_ <=? _)%Z; [| rewrite Hpw; split; assumption].
      split; [simpl; lia |].
      intros b f Hin; simpl in Hin; apply in_app_or in Hin as [Hin | [Heq | []]];
        [exact (Hsp _ _ Hin) |].
      injection Heq as <- _; lia.
    + destruct (run_batch_frame te vr batch pf (set_spawned (pre ++ post) w)) as (-> & _ & _ & -> & _).
      split; [exact Hq |].
      intros b f Hin; apply (Hsp b f); rewrite Hspw; simpl in Hin.
      apply in_app_or in Hin as [Hin | Hin]; apply in_or_app; [left | right; right]; exact Hin.
    + split; [exact Hq | exact Hsp].
  - unfold graceful_shutdown; simpl.
    destruct (pending_requests w) as [| x r] eqn:Hpw; [simpl; rewrite Hpw; split; assumption |].
    destruct (run_batch_frame te vr (x :: r) (process_bge_embeddings te)
                (set_pending [] (set_shutting_down true w))) as (-> & _ & _ & -> & _).
    simpl; split; [lia | exact Hsp].
Qed.

Lemma reachable_bound : forall te vr cfg w,
  (0 < BATCH_SIZE cfg)%Z ->
  reachable te vr cfg w ->
  (Z.of_nat (length (pending_requests w)) < BATCH_SIZE cfg)%Z /\
  (forall b f, In (b, f) (spawned w) -> (Z.of_nat (length b) <= BATCH_SIZE cfg)%Z).
Proof.
  intros te vr cfg w Hbs [enc Hsteps].
  assert (Hinit : (Z.of_nat (length (pending_requests (initial_world enc))) < BATCH_SIZE cfg)%Z /\
                  (forall b f, In (b, f) (spawned (initial_world enc)) ->
                               (Z.of_nat (length b) <= BATCH_SIZE cfg)%Z))
    by (split; [simpl; lia | intros b f []]).
  revert Hinit; induction Hsteps as [w | w1 w2 w3 H12 H23 IH]; intros [Hq Hsp]; [split; assumption |].
  apply IH; exact (step_keeps_bound _ _ _ _ _ Hbs H12 Hq Hsp).
Qed.

Lemma add_request_awaiting : forall cfg now req pf w w' fid,
  add_request cfg now req pf w = (w', Awaiting fid) ->
  is_shutting_down w = false /\ input req <> InList [] /\
  (Z.of_nat (length (pending_requests w)) < MAX_QUEUE_SIZE cfg)%Z.
Proof.
  intros cfg now req pf w w' fid H; unfold add_request in H.
  destruct (is_shutting_down w); [discriminate |].
  destruct (input req) as [s | [| x l]];
    [| destruct (pf _ None); discriminate |];
    simpl pending_requests in H;
    (destruct (_ <=? _)%Z eqn:Hc; [discriminate |]);
    (split; [reflexivity | split; [discriminate | apply Z.leb_gt; exact Hc]]).
Qed.

(** C8: with [BATCH_SIZE >= 1], in every reachable state fewer than
    [BATCH_SIZE] entries are queued, and the same holds when [add_request]
    releases the lock; an accepted entry that brings the queue to
    [BATCH_SIZE] makes that same step dispatch a batch of exactly
    [BATCH_SIZE] entries and empty the queue. *)
Theorem queue_below_batch_size : forall te vr cfg w,
  (0 < BATCH_SIZE cfg)%Z ->
  reachable te vr cfg w ->
  (Z.of_nat (length (pending_requests w)) < BATCH_SIZE cfg)%Z /\
  (forall now req pf w' o,
     add_request cfg now req pf w = (w', o) ->
     (Z.of_nat (length (pending_requests w')) < BATCH_SIZE cfg)%Z /\
     (o = Awaiting (next_future w) ->
      (Z.of_nat (length (pending_requests w)) + 1 = BATCH_SIZE cfg)%Z ->
      pending_requests w' = [] /\
      exists batch, spawned w' = spawned w ++ [(batch, pf)] /\
                    Z.of_nat (length batch) = BATCH_SIZE cfg)).
Proof.
  intros te vr cfg w Hbs Hr.
  destruct (reachable_bound te vr cfg w Hbs Hr) as [Hq Hsp].
  split; [exact Hq |].
  intros now req pf w' o Hadd.
  split.
  { apply (step_keeps_bound te vr cfg w w' Hbs); [| exact Hq | exact Hsp].
    apply step_app; eapply step_request; exact Hadd. }
  intros -> Hfill.
  destruct (add_request_awaiting _ _ _ _ _ _ _ Hadd) as (Hs & Hne & Hcap).
  rewrite (add_request_accepted cfg now req pf w Hs Hne Hcap) in Hadd; cbv zeta in Hadd.
  set (q := pending_requests w ++ _) in *.
  assert (Hlq : Z.of_nat (length q) = BATCH_SIZE cfg) by (unfold q; rewrite length_app; simpl; lia).
  assert (Hsp' : should_process cfg now q = true)
    by (unfold should_process; rewrite Hlq, Z.leb_refl; reflexivity).
  rewrite Hsp' in Hadd; injection Hadd as <-.
  unfold py_take, py_drop; rewrite !py_index_nonneg by lia; simpl.
  split; [apply skipn_all2; lia |].
  exists (firstn (Z.to_nat (BATCH_SIZE cfg)) q); split; [reflexivity |].
  rewrite length_firstn; lia.
Qed.

(** C6 (as the code does it): a sweeper tick that finds a non-empty queue
    whose oldest entry is at least [BATCH_TIMEOUT_MS] old hands the whole
    queue to a new batch task running [process_bge_embeddings] and empties
    the queue; otherwise it changes nothing. With [BATCH_SIZE >= 1], in
    every reachable state (the lock is free between steps) the queue holds
    fewer than [BATCH_SIZE] entries, before and after the tick, so the
    whole queue the sweeper takes is smaller than [BATCH_SIZE]; no batch
    task, whether dispatched by [add_request] or by the sweeper, exceeds
    [BATCH_SIZE]; and the batch the [graceful_shutdown] drain runs is that
    same queue. *)
Theorem sweeper_takes_whole_queue : forall te vr cfg now w,
  let w' := sweeper_tick te cfg now w in
  (forall oldest older,
     pending_requests w = oldest :: older ->
     (BATCH_TIMEOUT_MS cfg <= now - timestamp oldest)%Z ->
     pending_requests w' = [] /\
     spawned w' = spawned w ++ [(pending_requests w, process_bge_embeddings te)]) /\
  (forall oldest older,
     pending_requests w = oldest :: older ->
     (now - timestamp oldest < BATCH_TIMEOUT_MS cfg)%Z -> w' = w) /\
  (pending_requests w = [] -> w' = w) /\
  ((0 < BATCH_SIZE cfg)%Z -> reachable te vr cfg w ->
     (Z.of_nat (length (pending_requests w)) < BATCH_SIZE cfg)%Z /\
     (Z.of_nat (length (pending_requests w')) < BATCH_SIZE cfg)%Z /\
     (forall b f, In (b, f) (spawned w') -> (Z.of_nat (length b) <= BATCH_SIZE cfg)%Z) /\
     (pending_requests w <> [] ->
      graceful_shutdown te vr w =
      run_batch te vr (pending_requests w) (process_bge_embeddings te)
        (set_pending [] (set_shutting_down true w)))).
Proof.
  intros te vr cfg now w; cbv zeta.
  split; [| split; [| split]].
  - intros oldest older Hpw Hold; unfold sweeper_tick; rewrite Hpw.
    assert (Hleb : (BATCH_TIMEOUT_MS cfg <=? now - timestamp oldest)%Z = true)
      by (apply Z.leb_le; exact Hold).
    rewrite Hleb; split; [reflexivity | rewrite <- Hpw; reflexivity].
  - intros oldest older Hpw Hyoung; unfold sweeper_tick; rewrite Hpw.
    assert (Hleb : (BATCH_TIMEOUT_MS cfg <=? now - timestamp oldest)%Z = false)
      by (apply Z.leb_gt; exact Hyoung).
    rewrite Hleb; reflexivity.
  - intros Hpw; unfold sweeper_tick; rewrite Hpw; reflexivity.
  - intros Hbs Hr.
    destruct (reachable_bound te vr cfg w Hbs Hr) as [Hq Hsp].
    split; [exact Hq |]. split; [| split].
    + unfold sweeper_tick; destruct (pending_requests w) as [| oldest older] eqn:Hpw;
        [rewrite Hpw; exact Hq |].
      destruct (_ <=? _)%Z; simpl; [lia | rewrite Hpw; exact Hq].
    + intros b f Hin; unfold sweeper_tick in Hin.
      destruct (pending_requests w) as [| oldest older] eqn:Hpw; [exact (Hsp b f Hin) |].
      destruct (_ <=? _)%Z; [| exact (Hsp b f Hin)].
      simpl in Hin; apply in_app_or in Hin as [Hin | [E | []]]; [exact (Hsp b f Hin) |].
      injection E as <- _; lia.
    + intros Hne; unfold graceful_shutdown; simpl pending_requests.
      destruct (pending_requests w); [contradiction | reflexivity].
Qed.

Lemma app_singleton_neq : forall A (l : list A) x, l <> l ++ [x].
Proof. intros A l x H; apply (f_equal (@length A)) in H; rewrite length_app in H; simpl in H; lia. Qed.

(** C6, refuted: the claim makes the sweeper the one path that yields a
    batch larger than [BATCH_SIZE]. Under the default configuration
    ([BATCH_SIZE = 8]) no reachable state lets a sweeper tick spawn a batch
    of more than 8 entries; and under [BATCH_SIZE = 0] a reachable state
    has a queued entry that [graceful_shutdown], not the sweeper, runs as a
    batch larger than [BATCH_SIZE]. *)
Lemma sweeper_never_oversized_default :
  ~ (exists te vr w now b f,
       reachable te vr cfg_default w /\
       spawned (sweeper_tick te cfg_default now w) = spawned w ++ [(b, f)] /\
       (8 < length b)%nat) /\
  (reachable te_count no_validation_error cfg_zero w_zero /\
   (BATCH_SIZE cfg_zero < Z.of_nat (length (pending_requests w_zero)))%Z /\
   graceful_shutdown te_count no_validation_error w_zero =
   run_batch te_count no_validation_error (pending_requests w_zero)
     (process_bge_embeddings te_count) (set_pending [] (set_shutting_down true w_zero))).
Proof.
  split.
  - intros (te & vr & w & now & b & f & Hr & Hsw & Hlen).
    destruct (reachable_bound te vr cfg_default w ltac:(simpl; lia) Hr) as [Hq _].
    simpl in Hq; unfold sweeper_tick in Hsw.
    destruct (pending_requests w) as [| oldest older] eqn:Hpw;
      [exact (app_singleton_neq _ _ _ Hsw) |].
    destruct (_ <=? _)%Z; [| exact (app_singleton_neq _ _ _ Hsw)].
    simpl in Hsw; apply app_inv_head in Hsw; injection Hsw as <- _.
    lia.
  - split; [| split; [vm_compute; reflexivity | reflexivity]].
    exists enc_all.
    eapply steps_cons; [apply step_app | apply steps_refl].
    apply step_request with (now := 0%Z) (req := req_text "alpha" true true true) (pf := bge)
      (o := snd (add_request cfg_zero 0 (req_text "alpha" true true true) bge w_start)).
    reflexivity.
Qed.

Lemma graceful_shutdown_closed : forall te vr w,
  is_shutting_down (graceful_shutdown te vr w) = true /\
  pending_requests (graceful_shutdown te vr w) = [].
Proof.
  intros te vr w; unfold graceful_shutdown; cbv zeta.
  destruct (pending_requests (set_shutting_down true w)) as [| x l] eqn:Hp.
  - split; [reflexivity | exact Hp].
  - destruct (run_batch_frame te vr (x :: l) (process_bge_embeddings te)
                (set_pending [] (set_shutting_down true w))) as (Hq & Hs & _).
    rewrite Hq, Hs; split; reflexivity.
Qed.

Lemma step_keeps_closed : forall te vr cfg w w',
  step te vr cfg w w' ->
  is_shutting_down w = true -> pending_requests w = [] ->
  is_shutting_down w' = true /\ pending_requests w' = [].
Proof.
  intros te vr cfg w w' Hst Hs Hp.
  destruct Hst as [w w' Happ | w]; [| apply graceful_shutdown_closed].
  destruct Happ as [now req pf w w' o Hadd | now w Hrun | pre batch pf post w Hsp | w].
  - destruct (add_request_shape _ _ _ _ _ _ _ Hadd) as [Hs' [[Hp' _] | [Hf _]]].
    + rewrite Hs', Hp'; split; assumption.
    + rewrite Hs in Hf; discriminate.
  - unfold sweeper_tick; rewrite Hp; split; assumption.
  - destruct (run_batch_frame te vr batch pf (set_spawned (pre ++ post) w)) as (Hq & Hs' & _).
    rewrite Hq, Hs'; split; assumption.
  - split; assumption.
Qed.

Lemma steps_keep_closed : forall te vr cfg w w',
  steps te vr cfg w w' ->
  is_shutting_down w = true -> pending_requests w = [] ->
  is_shutting_down w' = true /\ pending_requests w' = [].
Proof.
  intros te vr cfg w w' Hst; induction Hst as [w | w1 w2 w3 H12 H23 IH]; intros Hs Hp.
  - split; assumption.
  - destruct (step_keeps_closed te vr cfg w1 w2 H12 Hs Hp) as [Hs2 Hp2].
    exact (IH Hs2 Hp2).
Qed.

(** C7: once [graceful_shutdown] has run, whatever happens afterwards the
    processor stays in shutdown mode with an empty queue: every later
    [add_request] is rejected with the 503 shutdown error and leaves the
    state as it is. *)
Theorem shutdown_closes_intake : forall te vr cfg w0 w,
  steps te vr cfg (graceful_shutdown te vr w0) w ->
  is_shutting_down w = true /\ pending_requests w = [] /\
  (forall now req pf, add_request cfg now req pf w = (w, Raised SHUTDOWN_ERROR)).
Proof.
  intros te vr cfg w0 w Hst.
  destruct (graceful_shutdown_closed te vr w0) as [Hs0 Hp0].
  destruct (steps_keep_closed te vr cfg _ _ Hst Hs0 Hp0) as [Hs Hp].
  split; [exact Hs | split; [exact Hp |]].
  intros now req pf; unfold add_request; rewrite Hs; reflexivity.
Qed.

Lemma app_step_keeps_flag : forall te vr cfg w w',
  app_step te vr cfg w w' -> is_shutting_down w' = is_shutting_down w.
Proof.
  intros te vr cfg w w' Happ.
  destruct Happ as [now req pf w w' o Hadd | now w Hrun | pre batch pf post w Hsp | w].
  - exact (proj1 (add_request_shape _ _ _ _ _ _ _ Hadd)).
  - unfold sweeper_tick; destruct (pending_requests w); [reflexivity |].
    destruct (_ <=? _)%Z; reflexivity.
  - exact (proj1 (proj2 (run_batch_frame te vr batch pf (set_spawned (pre ++ post) w)))).
  - reflexivity.
Qed.

Lemma app_steps_keep_flag : forall te vr cfg w w',
  app_steps te vr cfg w w' -> is_shutting_down w' = is_shutting_down w.
Proof.
  intros te vr cfg w w' Hst; induction Hst as [w | w1 w2 w3 H12 H23 IH]; [reflexivity |].
  rewrite IH; exact (app_step_keeps_flag te vr cfg w1 w2 H12).
Qed.

(** C9: the application never calls [graceful_shutdown] on its own. Along
    any run of the service's own steps from a state that is not shutting
    down, the flag stays [false]; the shutdown half of [lifespan] then only
    stops the timeout task and drops the encoder: the flag stays [false]
    and the queued entries are left where they are, not drained. *)
Theorem lifespan_never_drains : forall te vr cfg w w',
  is_shutting_down w = false ->
  app_steps te vr cfg w w' ->
  let w'' := lifespan_shutdown w' in
  is_shutting_down w' = false /\
  is_shutting_down w'' = false /\
  pending_requests w'' = pending_requests w' /\
  spawned w'' = spawned w' /\
  timeout_task_running w'' = false /\
  app_encoder w'' = None.
Proof.
  intros te vr cfg w w' Hs Hst; cbv zeta.
  rewrite (app_steps_keep_flag te vr cfg w w' Hst), Hs.
  repeat split; simpl; try reflexivity.
  rewrite (app_steps_keep_flag te vr cfg w w' Hst); exact Hs.
Qed.


(** ** Concrete runs *)

(** The queue entries of [w_two] are [item_alpha] and [item_beta]. *)
Example w_two_batch :
  pending_requests w_two = [] /\
  map (fun t => map future (fst t)) (spawned w_two) = [[0; 1]] /\
  map (fun t => fst t) (spawned w_two) = [[item_alpha; item_beta]].
Proof. split; [reflexivity | split; reflexivity]. Qed.

(** The scenario of the spec: with [BATCH_SIZE = 2], A, B, C in order and
    no timeout, the dispatch takes [A; B] and leaves [C] queued. *)
Example abc_scenario :
  map future (pending_requests w_dense_first) = [0] /\
  map (fun t => map future (fst t)) (spawned w_three) = [[0; 1]] /\
  map future (pending_requests w_three) = [2].
Proof. split; [reflexivity | split; reflexivity]. Qed.

(** C1, refuted: in the batch [[alpha (dense only); beta (sparse only)]],
    the member [beta] gets a dense vector it did not ask for and no sparse
    vector, although its [embedding_types] says ["sparse"]. *)
Lemma member_gets_first_members_kinds :
  exists r d,
    futures w_two_done 1 = FResult r /\
    data r = [d] /\
    embedding_types r = ["sparse"] /\
    dense_embedding d = Some [1.5%float] /\
    sparse_embedding d = None /\
    carries_only_requested (req_text "beta" false true false) d = false.
Proof.
  eexists; eexists; split; [vm_compute; reflexivity |].
  split; [vm_compute; reflexivity |].
  split; [vm_compute; reflexivity |].
  split; [vm_compute; reflexivity |].
  split; vm_compute; reflexivity.
Qed.

Lemma process_batch_member_response_witness :
  exists out, enc_all (all_texts [item_alpha; item_beta]) = Ok out /\
  exists r,
    futures (run_batch te_count no_validation_error [item_alpha; item_beta] bge w_start)
      (future item_beta) =
      match no_validation_error r with Some ex => FError ex | None => FResult r end /\
    length (data r) = length (item_texts item_beta) /\
    (forall j d, nth_error (data r) j = Some d ->
       index d = j /\
       dense_embedding d =
         (if return_dense (request item_alpha) then vec_at (dense_vecs out) (1 + j) else None) /\
       sparse_embedding d =
         (if return_sparse (request item_alpha) then vec_at (lexical_weights out) (1 + j) else None) /\
       colbert_embedding d =
         (if return_colbert (request item_alpha) then vec_at (colbert_vecs out) (1 + j) else None)) /\
    prompt_tokens r = te_count (item_texts item_beta) /\
    total_tokens r = te_count (item_texts item_beta) /\
    embedding_types r =
      requested_types (return_dense (request item_beta)) (return_sparse (request item_beta))
        (return_colbert (request item_beta)).
Proof.
  eexists; split; [reflexivity |].
  apply (process_batch_member_response te_count no_validation_error item_alpha [item_beta]
           w_start enc_all _ 1 item_beta 1 2).
  - simpl; constructor; [simpl; intros [H | []]; discriminate H | constructor; [intros [] | constructor]].
  - intros x _; reflexivity.
  - reflexivity.
  - reflexivity.
  - reflexivity.
  - reflexivity.
  - reflexivity.
Defined.

Lemma process_batch_failure_isolation_witness :
  let batch := [item_alpha; item_beta] in
  let w' := run_batch te_count no_validation_error batch bge w_start in
  (forall ex, bge (with_input (request item_alpha) (all_texts batch)) (Some enc_all) = Err ex ->
     forall item, In item batch -> futures w' (future item) = FError ex) /\
  (forall br, bge (with_input (request item_alpha) (all_texts batch)) (Some enc_all) = Ok br ->
     forall i item s e,
       nth_error batch i = Some item ->
       nth_error (request_boundaries batch) i = Some (s, e) ->
       futures w' (future item) =
       match no_validation_error (individual_result te_count br item s e) with
       | Some ex => FError ex
       | None => FResult (individual_result te_count br item s e)
       end).
Proof.
  apply (process_batch_failure_isolation te_count no_validation_error item_alpha [item_beta]
           bge w_start enc_all).
  - simpl; constructor; [simpl; intros [H | []]; discriminate H | constructor; [intros [] | constructor]].
  - intros x _; reflexivity.
  - reflexivity.
Defined.

Lemma add_request_dispatch_witness :
  let item := mkItem (with_input (req_text "beta" false true false) ["beta"]) 1 1 1 in
  let q := pending_requests w_dense_first ++ [item] in
  let k := Nat.min 2 (length q) in
  snd (add_request cfg_pair 1 (req_text "beta" false true false) bge w_dense_first) = Awaiting 1 /\
  (((2 <= Z.of_nat (length q))%Z \/
    exists oldest, hd_error q = Some oldest /\ (100 <= 1 - timestamp oldest)%Z) ->
   spawned w_two = spawned w_dense_first ++ [(firstn k q, bge)] /\
   pending_requests w_two = skipn k q) /\
  (~ ((2 <= Z.of_nat (length q))%Z \/
      exists oldest, hd_error q = Some oldest /\ (100 <= 1 - timestamp oldest)%Z) ->
   spawned w_two = spawned w_dense_first /\ pending_requests w_two = q).
Proof.
  apply (add_request_dispatch cfg_pair 1 (req_text "beta" false true false) bge w_dense_first
           w_two (snd (add_request cfg_pair 1 (req_text "beta" false true false) bge w_dense_first))).
  - simpl; lia.
  - reflexivity.
  - simpl; discriminate.
  - vm_compute; reflexivity.
  - reflexivity.
Defined.

(** C4, refuted: with [MAX_QUEUE_SIZE = 1] and one entry queued, a request
    whose input is the empty list is not refused: it is answered. *)
Lemma full_queue_answers_empty_input :
  (MAX_QUEUE_SIZE cfg_one_slot <= Z.of_nat (length (pending_requests w_full)))%Z /\
  is_shutting_down w_full = false /\
  snd (add_request cfg_one_slot 5 req_empty bge w_full) =
    Returned (mkResponse [] "BAAI/bge-m3" 0 0 ["dense"; "sparse"; "colbert"]).
Proof.
  split; [vm_compute; intro H; discriminate H |].
  split; reflexivity.
Qed.

Lemma add_request_capacity_rejects_witness :
  let r := add_request cfg_one_slot 5 (req_text "beta" true true true) bge w_full in
  snd r = Raised CAPACITY_ERROR /\
  pending_requests (fst r) = pending_requests w_full /\
  spawned (fst r) = spawned w_full.
Proof.
  apply (add_request_capacity_rejects cfg_one_slot 5 (req_text "beta" true true true) bge w_full).
  - reflexivity.
  - simpl; discriminate.
  - vm_compute; intro H; discriminate H.
  - reflexivity.
Defined.

Lemma request_boundaries_partition_witness :
  request_boundaries [item_alpha; item_beta] = [(0, 1); (1, 2)] /\
  all_texts [item_alpha; item_beta] = ["alpha"; "beta"] /\
  (let bs := request_boundaries [item_alpha; item_beta] in
   length bs = length [item_alpha; item_beta] /\
   (forall s e, nth_error bs 0 = Some (s, e) -> s = 0) /\
   (forall i s1 e1 s2 e2,
       nth_error bs i = Some (s1, e1) -> nth_error bs (S i) = Some (s2, e2) -> s2 = e1) /\
   (forall i s e, nth_error bs i = Some (s, e) -> s <= e) /\
   (forall i s e, nth_error bs i = Some (s, e) -> S i = length [item_alpha; item_beta] ->
       e = length (all_texts [item_alpha; item_beta])) /\
   (forall i item s e, nth_error [item_alpha; item_beta] i = Some item ->
       nth_error bs i = Some (s, e) ->
       py_slice s e (all_texts [item_alpha; item_beta]) = item_texts item)).
Proof.
  split; [reflexivity | split; [reflexivity |]].
  exact (request_boundaries_partition [item_alpha; item_beta]).
Defined.

Lemma w_queued_step : forall vr, app_step te_count vr cfg_default w_start w_queued.
Proof.
  intros vr.
  apply step_request with (now := 0%Z) (req := req_text "alpha" true true true) (pf := bge)
    (o := snd (add_request cfg_default 0 (req_text "alpha" true true true) bge w_start)).
  reflexivity.
Qed.

Lemma w_queued_reachable : forall vr, reachable te_count vr cfg_default w_queued.
Proof.
  intros vr; exists enc_all.
  eapply steps_cons; [apply step_app; apply w_queued_step | apply steps_refl].
Qed.

Lemma w_dense_first_reachable : forall vr, reachable te_count vr cfg_pair w_dense_first.
Proof.
  intros vr; exists enc_all.
  eapply steps_cons; [apply step_app | apply steps_refl].
  apply step_request with (now := 0%Z) (req := req_text "alpha" true false false) (pf := bge)
    (o := snd (add_request cfg_pair 0 (req_text "alpha" true false false) bge w_start)).
  reflexivity.
Qed.

Lemma sweeper_takes_whole_queue_witness :
  (0 < BATCH_SIZE cfg_default)%Z /\
  reachable te_count no_validation_error cfg_default w_queued /\
  pending_requests (sweeper_tick te_count cfg_default 150 w_queued) = [] /\
  (Z.of_nat (length (pending_requests w_queued)) < BATCH_SIZE cfg_default)%Z /\
  graceful_shutdown te_count no_validation_error w_queued =
  run_batch te_count no_validation_error (pending_requests w_queued)
    (process_bge_embeddings te_count) (set_pending [] (set_shutting_down true w_queued)).
Proof.
  assert (Hbs : (0 < BATCH_SIZE cfg_default)%Z) by (simpl; lia).
  pose proof (w_queued_reachable no_validation_error) as Hr.
  destruct (sweeper_takes_whole_queue te_count no_validation_error cfg_default 150 w_queued)
    as (Hstale & _ & _ & Hbound).
  destruct (Hbound Hbs Hr) as (Hq & _ & _ & Hg).
  split; [exact Hbs | split; [exact Hr | split; [| split; [exact Hq |]]]].
  - apply (proj1 (Hstale item_alpha_all [] eq_refl ltac:(simpl; lia))).
  - apply Hg; discriminate.
Defined.

Lemma shutdown_closes_intake_witness :
  let w := graceful_shutdown te_count no_validation_error w_queued in
  is_shutting_down w = true /\ pending_requests w = [] /\
  (forall now req pf, add_request cfg_default now req pf w = (w, Raised SHUTDOWN_ERROR)).
Proof.
  apply (shutdown_closes_intake te_count no_validation_error cfg_default w_queued).
  apply steps_refl.
Defined.

Lemma queue_below_batch_size_witness :
  (Z.of_nat (length (pending_requests w_dense_first)) < BATCH_SIZE cfg_pair)%Z /\
  (forall now req pf w' o,
     add_request cfg_pair now req pf w_dense_first = (w', o) ->
     (Z.of_nat (length (pending_requests w')) < BATCH_SIZE cfg_pair)%Z /\
     (o = Awaiting (next_future w_dense_first) ->
      (Z.of_nat (length (pending_requests w_dense_first)) + 1 = BATCH_SIZE cfg_pair)%Z ->
      pending_requests w' = [] /\
      exists batch, spawned w' = spawned w_dense_first ++ [(batch, pf)] /\
                    Z.of_nat (length batch) = BATCH_SIZE cfg_pair)).
Proof.
  apply (queue_below_batch_size te_count no_validation_error cfg_pair w_dense_first).
  - simpl; lia.
  - apply w_dense_first_reachable.
Defined.

Lemma lifespan_never_drains_witness :
  let w'' := lifespan_shutdown w_queued in
  is_shutting_down w_queued = false /\
  is_shutting_down w'' = false /\
  pending_requests w'' = pending_requests w_queued /\
  spawned w'' = spawned w_queued /\
  timeout_task_running w'' = false /\
  app_encoder w'' = None.
Proof.
  apply (lifespan_never_drains te_count no_validation_error cfg_default w_start w_queued).
  - reflexivity.
  - eapply app_steps_cons; [apply w_queued_step | apply app_steps_refl].
Defined.

Lemma empty_input_bypasses_queue_witness :
  (forall pf, add_request cfg_default 0 req_empty pf w_start = (w_start, of_result (pf req_empty None))) /\
  add_request cfg_default 0 req_empty (process_bge_embeddings te_count) w_start =
  (w_start, Returned (mkResponse [] (model req_empty) 0 0
                 (requested_types (return_dense req_empty) (return_sparse req_empty)
                    (return_colbert req_empty)))).
Proof.
  apply (empty_input_bypasses_queue te_count cfg_default 0 req_empty w_start).
  - reflexivity.
  - reflexivity.
Defined.

(** ** Further properties of the code *)

(** *** Relations kept by monadic code *)

Section Preserve.

Variable R : World -> World -> Prop.
Hypothesis R_refl : forall w, R w w.
Hypothesis R_trans : forall w1 w2 w3, R w1 w2 -> R w2 w3 -> R w1 w3.

Lemma preserves_ret : forall A (a : A), preserves R (ret a).
Proof. intros A a w; apply R_refl. Qed.

Lemma preserves_raise : forall A e, preserves R (@raise A e).
Proof. intros A e w; apply R_refl. Qed.

Lemma preserves_get : preserves R get.
Proof. intro w; apply R_refl. Qed.

Lemma preserves_done : forall fid, preserves R (done fid).
Proof. intros fid w; apply R_refl. Qed.

Lemma preserves_bind : forall A B (m : M A) (k : A -> M B),
  preserves R m -> (forall a, preserves R (k a)) -> preserves R (bind m k).
Proof.
  intros A B m k Hm Hk w; unfold bind.
  specialize (Hm w); destruct (m w) as [a w1 | e w1]; simpl in *.
  - exact (R_trans _ _ _ Hm (Hk a w1)).
  - exact Hm.
Qed.

Lemma preserves_try : forall A (m : M A) (h : Exn -> M A),
  preserves R m -> (forall e, preserves R (h e)) -> preserves R (try_except m h).
Proof.
  intros A m h Hm Hh w; unfold try_except.
  specialize (Hm w); destruct (m w) as [a w1 | e w1]; simpl in *.
  - exact Hm.
  - exact (R_trans _ _ _ Hm (Hh e w1)).
Qed.

Lemma preserves_modify : forall f, (forall w, R w (f w)) -> preserves R (modify f).
Proof. intros f Hf w; apply Hf. Qed.

Lemma preserves_weaken : forall (R' : World -> World -> Prop) A (m : M A),
  (forall w w', R w w' -> R' w w') -> preserves R m -> preserves R' m.
Proof. intros R' A m HR Hm w; apply HR, Hm. Qed.

End Preserve.

Lemma fut_rel_refl : forall S w, fut_rel S w w.
Proof. intros S w k _; reflexivity. Qed.

Lemma fut_rel_trans : forall S w1 w2 w3, fut_rel S w1 w2 -> fut_rel S w2 w3 -> fut_rel S w1 w3.
Proof.
  intros S w1 w2 w3 H12 H23 k Hk.
  assert (E : futures w2 k = futures w1 k) by exact (H12 k Hk).
  rewrite <- E; apply H23; rewrite E; exact Hk.
Qed.

Lemma fut_rel_mono : forall (S S' : nat -> Prop) w w',
  (forall k, S k -> S' k) -> fut_rel S w w' -> fut_rel S' w w'.
Proof. intros S S' w w' HS H k Hk; apply H; intro Hs; exact (Hk (HS k Hs)). Qed.

Lemma stats_rel_refl : forall w, stats_rel w w.
Proof. intro w; split; reflexivity. Qed.

Lemma stats_rel_trans : forall w1 w2 w3, stats_rel w1 w2 -> stats_rel w2 w3 -> stats_rel w1 w3.
Proof. intros w1 w2 w3 [H1 H2] [H3 H4]; split; congruence. Qed.

Create HintDb keeps.
#[local] Hint Resolve fut_rel_refl fut_rel_trans stats_rel_refl stats_rel_trans : keeps.
#[local] Hint Resolve preserves_ret preserves_raise preserves_get preserves_done
  preserves_bind preserves_try : keeps.

Lemma fut_rel_set_result : forall (S : nat -> Prop) fid r,
  S fid -> preserves (fut_rel S) (set_result fid r).
Proof.
  intros S fid r Hs w; unfold set_result.
  destruct (futures w fid) eqn:Hf; simpl; [| apply fut_rel_refl | apply fut_rel_refl].
  intros k Hk; simpl; destruct (Nat.eqb k fid) eqn:E; [| reflexivity].
  apply Nat.eqb_eq in E; subst k; exfalso; exact (Hk Hs Hf).
Qed.

Lemma fut_rel_set_exception : forall (S : nat -> Prop) fid e,
  S fid -> preserves (fut_rel S) (set_exception fid e).
Proof.
  intros S fid e Hs w; unfold set_exception.
  destruct (futures w fid) eqn:Hf; simpl; [| apply fut_rel_refl | apply fut_rel_refl].
  intros k Hk; simpl; destruct (Nat.eqb k fid) eqn:E; [| reflexivity].
  apply Nat.eqb_eq in E; subst k; exfalso; exact (Hk Hs Hf).
Qed.

Lemma stats_set_result : forall fid r, preserves stats_rel (set_result fid r).
Proof. intros fid r w; unfold set_result; destruct (futures w fid); split; reflexivity. Qed.

Lemma stats_set_exception : forall fid e, preserves stats_rel (set_exception fid e).
Proof. intros fid e w; unfold set_exception; destruct (futures w fid); split; reflexivity. Qed.

#[local] Hint Resolve stats_set_result stats_set_exception : keeps.

Lemma fut_resolve_members : forall te vr br members,
  preserves (fut_rel (fun k => In k (map (fun m => future (fst m)) members)))
    (resolve_members te vr br members).
Proof.
  intros te vr br members; induction members as [| [item [s e]] rest IH]; simpl.
  - auto with keeps.
  - apply preserves_bind; [exact (fut_rel_trans _) |  |].
    + unfold resolve_member; apply preserves_try; [exact (fut_rel_trans _) | |].
      * destruct (vr _); [auto with keeps |].
        apply fut_rel_set_result; left; reflexivity.
      * intro ex; apply fut_rel_set_exception; left; reflexivity.
    + intros _; eapply preserves_weaken; [| exact IH]; intros w w'.
      apply fut_rel_mono; intros k Hk; right; exact Hk.
Qed.

Lemma fut_fail_all : forall e batch,
  preserves (fut_rel (fun k => In k (map future batch))) (fail_all e batch).
Proof.
  intros e batch; induction batch as [| item rest IH]; simpl.
  - auto with keeps.
  - apply preserves_bind; [exact (fut_rel_trans _) | auto with keeps | intros d].
    apply preserves_bind; [exact (fut_rel_trans _) | |].
    + destruct d; [auto with keeps |].
      apply fut_rel_set_exception; left; reflexivity.
    + intros _; eapply preserves_weaken; [| exact IH]; intros w w'.
      apply fut_rel_mono; intros k Hk; right; exact Hk.
Qed.

Lemma stats_resolve_members : forall te vr br members,
  preserves stats_rel (resolve_members te vr br members).
Proof.
  intros te vr br members; induction members as [| [item [s e]] rest IH]; simpl.
  - auto with keeps.
  - apply preserves_bind; [exact stats_rel_trans | | intros; exact IH].
    unfold resolve_member; apply preserves_try; [exact stats_rel_trans | | auto with keeps].
    destruct (vr _); auto with keeps.
Qed.

Lemma stats_fail_all : forall e batch, preserves stats_rel (fail_all e batch).
Proof.
  intros e batch; induction batch as [| item rest IH]; simpl.
  - auto with keeps.
  - apply preserves_bind; [exact stats_rel_trans | auto with keeps | intros d].
    apply preserves_bind; [exact stats_rel_trans | destruct d; auto with keeps | intros; exact IH].
Qed.

Lemma run_batch_out : forall te vr batch pf w,
  run_batch te vr batch pf w = out_world (process_batch te vr batch pf w).
Proof. intros; unfold run_batch; destruct (process_batch _ _ _ _ _); reflexivity. Qed.

Lemma fut_process_batch : forall te vr batch pf,
  preserves (fut_rel (fun k => In k (map future batch))) (process_batch te vr batch pf).
Proof.
  intros te vr batch pf; unfold process_batch.
  apply preserves_try; [exact (fut_rel_trans _) | | intro e; apply fut_fail_all].
  destruct batch as [| first rest]; [auto with keeps |]; cbv zeta.
  apply preserves_bind; [exact (fut_rel_trans _) | auto with keeps | intro w0].
  destruct (app_encoder w0) as [enc |]; [| auto with keeps].
  destruct (pf _ _) as [br | ex]; [| auto with keeps].
  apply preserves_bind; [exact (fut_rel_trans _) | |].
  - eapply preserves_weaken; [| apply fut_resolve_members]; intros w w'.
    apply fut_rel_mono; intros k Hk.
    apply in_map_iff in Hk; destruct Hk as ([it b] & <- & Hin).
    apply (in_map future (first :: rest) it); exact (in_combine_l _ _ _ _ Hin).
  - intros _; apply preserves_modify; intros w k _; reflexivity.
Qed.

Lemma run_batch_fut : forall te vr batch pf w k,
  (In k (map future batch) -> futures w k <> FPending) ->
  futures (run_batch te vr batch pf w) k = futures w k.
Proof.
  intros te vr batch pf w k Hk; rewrite run_batch_out.
  exact (fut_process_batch te vr batch pf w k Hk).
Qed.

(** X1: running a batch task changes no future outside the batch, and
    never changes a future that is already settled: [set_result] and
    [set_exception] raise on a done future, and the outer handler skips
    done futures. *)
Theorem run_batch_touches_only_pending_members : forall te vr batch pf w k,
  (In k (map future batch) -> futures w k <> FPending) ->
  futures (run_batch te vr batch pf w) k = futures w k.
Proof. exact run_batch_fut. Qed.

Ltac stats_after_fail :=
  match goal with
  | |- context [fail_all ?e ?b ?w0] =>
    generalize (stats_fail_all e b w0); unfold stats_rel;
    destruct (fail_all e b w0); simpl; tauto
  end.

Lemma run_batch_stats_cases : forall te vr batch pf w,
  let w' := run_batch te vr batch pf w in
  (total_batches w' = total_batches w /\ total_requests w' = total_requests w) \/
  (batch <> [] /\
   total_batches w' = total_batches w + 1 /\
   total_requests w' = total_requests w + Z.of_nat (length batch))%Z.
Proof.
  intros te vr batch pf w; cbv zeta.
  remember (run_batch te vr batch pf w) as w' eqn:Hw'.
  unfold run_batch, process_batch, try_except in Hw'.
  destruct batch as [| first rest].
  - left; subst w'; split; reflexivity.
  - cbv zeta in Hw'; unfold bind at 1, get in Hw'.
    destruct (app_encoder w) as [enc |].
    2:{ unfold raise in Hw'; left; subst w'; stats_after_fail. }
    destruct (pf _ _) as [br | ex].
    2:{ unfold raise in Hw'; left; subst w'; stats_after_fail. }
    unfold bind in Hw'.
    pose proof (stats_resolve_members te vr br (combine (first :: rest) (request_boundaries (first :: rest))) w) as Hs.
    destruct (resolve_members _ _ _ _ w) as [u w1 | e w1]; simpl in Hs.
    + right; destruct Hs as [H1 H2]; subst w'; simpl.
      split; [discriminate | split; [rewrite H1; reflexivity | rewrite H2; reflexivity]].
    + left; pose proof (stats_fail_all e (first :: rest) w1) as Hf.
      destruct (fail_all e (first :: rest) w1) as [u w2 | e2 w2]; simpl in Hf; subst w';
        exact (stats_rel_trans _ _ _ Hs Hf).
Qed.

(** X2: a batch task adds one batch and its size to [self.stats] when the
    shared call returns, and leaves the stats as they are when it fails
    (empty batch, no encoder, or an exception from the processing function
    or from the fan-out loop). *)
Theorem run_batch_stats : forall te vr batch pf w,
  let w' := run_batch te vr batch pf w in
  (total_batches w' = total_batches w /\ total_requests w' = total_requests w) \/
  (batch <> [] /\
   total_batches w' = total_batches w + 1 /\
   total_requests w' = total_requests w + Z.of_nat (length batch))%Z.
Proof. exact run_batch_stats_cases. Qed.

Lemma run_batch_noenc_futures : forall te vr batch pf w,
  app_encoder w = None ->
  forall item, In item batch -> futures w (future item) = FPending ->
    futures (run_batch te vr batch pf w) (future item) =
    FError (AttributeError "'State' object has no attribute 'encoder'").
Proof.
  intros te vr batch pf w Henc item Hin Hp.
  destruct batch as [| first rest]; [destruct Hin |].
  unfold run_batch, process_batch, try_except, bind at 1, get; cbv beta iota zeta.
  rewrite Henc; unfold raise.
  destruct (fail_all_futures (AttributeError "'State' object has no attribute 'encoder'")
              (first :: rest) w) as (w2 & Hrun & Hw2).
  rewrite Hrun, Hw2, (existsb_future_in _ _ Hin), Hp; reflexivity.
Qed.

Lemma run_batch_settles_members : forall te vr batch pf w,
  NoDup (map future batch) ->
  (forall item, In item batch -> futures w (future item) = FPending) ->
  forall item, In item batch -> futures (run_batch te vr batch pf w) (future item) <> FPending.
Proof.
  intros te vr batch pf w Hnd Hp item Hin.
  destruct batch as [| first rest]; [destruct Hin |].
  destruct (app_encoder w) as [enc |] eqn:Henc.
  2:{ rewrite (run_batch_noenc_futures te vr _ pf w Henc item Hin (Hp _ Hin)); discriminate. }
  destruct (pf (with_input (request first) (all_texts (first :: rest))) (Some enc))
    as [br | ex] eqn:Hpf.
  - destruct (In_nth_error _ _ Hin) as [i Hi].
    assert (Hlen : length (first :: rest) = length (request_boundaries (first :: rest)))
      by (symmetry; apply boundaries_from_length).
    assert (Hlt : i < length (request_boundaries (first :: rest))).
    { rewrite <- Hlen; apply nth_error_Some; rewrite Hi; discriminate. }
    apply nth_error_Some in Hlt.
    destruct (nth_error (request_boundaries (first :: rest)) i) as [[s e] |] eqn:Hb;
      [| contradiction].
    rewrite (run_batch_ok_futures te vr first rest pf w enc br Hnd Hp Henc Hpf i item s e Hi Hb).
    destruct (vr _); discriminate.
  - rewrite (run_batch_err_futures te vr first rest pf w enc ex Henc Hp Hpf item Hin); discriminate.
Qed.

(** X3: once [app.state.encoder] is gone (after the [lifespan] teardown), a
    batch task fails every member whose future is pending with the
    [AttributeError] raised by reading the encoder. *)
Theorem run_batch_without_encoder : forall te vr batch pf w,
  app_encoder w = None ->
  forall item, In item batch -> futures w (future item) = FPending ->
    futures (run_batch te vr batch pf w) (future item) =
    FError (AttributeError "'State' object has no attribute 'encoder'").
Proof. exact run_batch_noenc_futures. Qed.

(** X4: a batch task whose members have distinct pending futures leaves
    none of them pending: whatever happens (empty encoder, failing shared
    call, failing or succeeding assembly), every member's future ends up
    with a result or an exception. *)
Theorem run_batch_settles_every_member : forall te vr batch pf w,
  NoDup (map future batch) ->
  (forall item, In item batch -> futures w (future item) = FPending) ->
  forall item, In item batch -> futures (run_batch te vr batch pf w) (future item) <> FPending.
Proof. exact run_batch_settles_members. Qed.

(** *** Invariants of the running service *)

Lemma perm_take_drop : forall A n (q c : list A),
  Permutation (skipn n q ++ (c ++ firstn n q ++ [])) (q ++ c).
Proof.
  intros A n q c; rewrite app_nil_r.
  eapply perm_trans; [apply Permutation_app_comm |].
  rewrite <- app_assoc, firstn_skipn; apply Permutation_app_comm.
Qed.

Lemma perm_snoc_mid : forall A (p c : list A) x,
  Permutation ((p ++ [x]) ++ c) ((p ++ c) ++ [x]).
Proof.
  intros A p c x; rewrite <- !app_assoc; apply Permutation_app_head.
  apply Permutation_app_comm.
Qed.

Lemma perm_mid_front : forall A (a b c d : list A),
  Permutation (a ++ b ++ c ++ d) (c ++ a ++ b ++ d).
Proof.
  intros A a b c d.
  replace (a ++ b ++ c ++ d) with ((a ++ b) ++ c ++ d) by (rewrite <- app_assoc; reflexivity).
  replace (c ++ a ++ b ++ d) with (c ++ (a ++ b) ++ d) by (rewrite <- app_assoc; reflexivity).
  apply Permutation_app_swap_app.
Qed.

Lemma add_request_cases : forall cfg now req pf w w' o,
  add_request cfg now req pf w = (w', o) ->
  w' = w \/
  (next_future w' = S (next_future w) /\
   (forall k, futures w' k = if Nat.eqb k (next_future w) then FPending else futures w k) /\
   total_batches w' = total_batches w /\ total_requests w' = total_requests w /\
   ((pending_requests w' = pending_requests w /\ spawned w' = spawned w) \/
    (input req <> InList [] /\
     (Z.of_nat (length (pending_requests w)) < MAX_QUEUE_SIZE cfg)%Z /\
     (length (pending_requests w') <= S (length (pending_requests w)))%nat /\
     Permutation (queue_items w')
       (queue_items w ++ [mkItem (with_input req (input_texts (input req))) (next_future w) now
                            (length (input_texts (input req)))])))).
Proof.
  intros cfg now req pf w w' o H; unfold add_request in H.
  destruct (is_shutting_down w); [injection H as <- _; left; reflexivity |].
  destruct (input req) as [s | [| x l]];
    [| injection H as <- _; left; reflexivity |];
  cbv zeta in H; simpl pending_requests in H;
  right; (destruct (_ <=? _)%Z eqn:Hc;
  [ injection H as <- _; simpl;
    split; [reflexivity | split; [reflexivity | split; [reflexivity | split; [reflexivity |]]]];
    left; split; reflexivity
  | apply Z.leb_gt in Hc;
    destruct (should_process _ _ _); injection H as <- _; simpl;
      (split; [reflexivity | split; [reflexivity | split; [reflexivity | split; [reflexivity |]]]]);
      right; (split; [discriminate | split; [exact Hc |]]);
    [ split;
      [ unfold py_drop; rewrite length_skipn, length_app; simpl; lia
      | unfold queue_items, py_take, py_drop; simpl;
        rewrite map_app, concat_app; simpl;
        eapply perm_trans; [apply perm_take_drop | apply perm_snoc_mid] ]
    | split; [rewrite length_app; simpl; lia |];
      unfold queue_items; simpl; apply perm_snoc_mid ] ]).
Qed.

Lemma nodup_app_notin : forall A (l1 l2 : list A) a,
  NoDup (l1 ++ l2) -> In a l2 -> ~ In a l1.
Proof.
  intros A l1; induction l1 as [| x l1 IH]; intros l2 a Hnd Hin Hin1; [destruct Hin1 |].
  inversion Hnd as [| y l Hx Hnd' Heq]; subst.
  destruct Hin1 as [<- | Hin1].
  - apply Hx, in_or_app; right; exact Hin.
  - exact (IH l2 a Hnd' Hin Hin1).
Qed.

Lemma queue_items_step : forall te vr cfg w w',
  step te vr cfg w w' ->
  (exists b, Permutation (queue_items w) (b ++ queue_items w') /\
             next_future w' = next_future w /\
             forall k, ~ In k (map future b) -> futures w' k = futures w k) \/
  (next_future w' = S (next_future w) /\
   (forall k, futures w' k = if Nat.eqb k (next_future w) then FPending else futures w k) /\
   (queue_items w' = queue_items w \/
    exists now req, input req <> InList [] /\
      Permutation (queue_items w')
        (queue_items w ++ [mkItem (with_input req (input_texts (input req))) (next_future w) now
                             (length (input_texts (input req)))]))).
Proof.
  intros te vr cfg w w' Hst.
  destruct Hst as [w w' Happ | w].
  - destruct Happ as [now req pf w w' o Hadd | now w Hrun | pre batch pf post w Hsp | w].
    + destruct (add_request_cases _ _ _ _ _ _ _ Hadd) as [-> | (Hn & Hf & _ & _ & Hq)].
      * left; exists []; split; [apply Permutation_refl | split; [reflexivity | intros; reflexivity]].
      * right; split; [exact Hn | split; [exact Hf |]].
        destruct Hq as [[Hp Hs] | (Hne & _ & _ & Hperm)].
        -- left; unfold queue_items; rewrite Hp, Hs; reflexivity.
        -- right; exists now, req; split; [exact Hne | exact Hperm].
    + left; unfold sweeper_tick.
      destruct (pending_requests w) as [| oldest older] eqn:Hpw.
      * exists []; split; [apply Permutation_refl | split; [reflexivity | intros; reflexivity]].
      * destruct (_ <=? _)%Z.
        -- exists []; simpl; split; [| split; [reflexivity | intros; reflexivity]].
           unfold queue_items; simpl; rewrite Hpw, map_app, concat_app; simpl.
           rewrite app_nil_r; apply (Permutation_app_comm (oldest :: older)).
        -- exists []; split; [apply Permutation_refl | split; [reflexivity | intros; reflexivity]].
    + left; exists batch.
      destruct (run_batch_frame te vr batch pf (set_spawned (pre ++ post) w)) as (Hq & _ & Hn & Hs & _).
      split; [| split; [rewrite Hn; reflexivity |]].
      * unfold queue_items; rewrite Hq, Hs, Hsp; simpl.
        rewrite !map_app, !concat_app; simpl.
        apply perm_mid_front.
      * intros k Hk; rewrite (run_batch_fut te vr batch pf _ k (fun H => False_ind _ (Hk H))).
        reflexivity.
    + left; exists []; split; [apply Permutation_refl | split; [reflexivity | intros; reflexivity]].
  - left; unfold graceful_shutdown; cbv zeta.
    destruct (pending_requests (set_shutting_down true w)) as [| x l] eqn:Hp.
    + exists []; split; [apply Permutation_refl | split; [reflexivity | intros; reflexivity]].
    + exists (x :: l).
      destruct (run_batch_frame te vr (x :: l) (process_bge_embeddings te)
                  (set_pending [] (set_shutting_down true w))) as (Hq & _ & Hn & Hs & _).
      split; [| split; [rewrite Hn; reflexivity |]].
      * unfold queue_items; rewrite Hq, Hs; simpl in Hp |- *; rewrite Hp; apply Permutation_refl.
      * intros k Hk; rewrite (run_batch_fut te vr _ _ _ k (fun H => False_ind _ (Hk H))).
        reflexivity.
Qed.

Lemma futures_ok_step : forall te vr cfg w w',
  step te vr cfg w w' -> futures_ok w -> futures_ok w'.
Proof.
  intros te vr cfg w w' Hst (Hnd & Hin & Hfree).
  destruct (queue_items_step te vr cfg w w' Hst)
    as [(b & Hperm & Hn & Hf) | (Hn & Hf & Hq)].
  - assert (Hnd' : NoDup (map future b ++ map future (queue_items w'))).
    { rewrite <- map_app; eapply Permutation_NoDup; [apply Permutation_map; exact Hperm | exact Hnd]. }
    assert (Hb : forall y, In y b -> future y < next_future w).
    { intros y Hy; apply Hin; eapply Permutation_in;
        [apply Permutation_sym; exact Hperm | apply in_or_app; left; exact Hy]. }
    split; [exact (NoDup_app_remove_l _ _ Hnd') | split].
    + intros y Hy.
      assert (Hy0 : In y (queue_items w)).
      { eapply Permutation_in; [apply Permutation_sym; exact Hperm | apply in_or_app; right; exact Hy]. }
      destruct (Hin y Hy0) as [Hlt Hp]; rewrite Hn, Hf; [split; assumption |].
      exact (nodup_app_notin _ _ _ _ Hnd' (in_map future _ _ Hy)).
    + intros k Hk; rewrite Hn in Hk; rewrite Hf; [exact (Hfree k Hk) |].
      intro Hkb; apply in_map_iff in Hkb; destruct Hkb as (y & <- & Hy).
      specialize (Hb y Hy); lia.
  - set (fid := next_future w) in *.
    assert (Hold : forall y, In y (queue_items w) -> future y <> fid).
    { intros y Hy E; destruct (Hin y Hy) as [Hlt _]; lia. }
    assert (Hf_old : forall y, In y (queue_items w) -> futures w' (future y) = FPending).
    { intros y Hy; rewrite Hf; pose proof (Hold y Hy) as E; apply Nat.eqb_neq in E.
      rewrite E; apply Hin, Hy. }
    destruct Hq as [Hq | (now & req & Hne & Hperm)].
    + unfold futures_ok; rewrite Hq; split; [exact Hnd | split].
      * intros y Hy; split; [destruct (Hin y Hy); lia | apply Hf_old, Hy].
      * intros k Hk; rewrite Hf; destruct (Nat.eqb k fid); [reflexivity | apply Hfree; lia].
    + set (x := mkItem _ fid now _) in Hperm.
      split; [| split].
      * eapply Permutation_NoDup; [apply Permutation_map, Permutation_sym, Hperm |].
        rewrite map_app; simpl; apply NoDup_app; [exact Hnd | constructor; [intros [] | constructor] |].
        intros a Ha [Ha' | []]; apply in_map_iff in Ha; destruct Ha as (y & Ey & Hy).
        apply (Hold y Hy); rewrite Ey; exact (eq_sym Ha').
      * intros y Hy; apply (Permutation_in _ Hperm), in_app_or in Hy.
        destruct Hy as [Hy | [<- | []]].
        -- split; [destruct (Hin y Hy); lia | apply Hf_old, Hy].
        -- split; [simpl; lia |]; rewrite Hf; simpl; rewrite Nat.eqb_refl; reflexivity.
      * intros k Hk; rewrite Hf; destruct (Nat.eqb k fid); [reflexivity | apply Hfree; lia].
Qed.

Lemma steps_futures_ok : forall te vr cfg w w',
  steps te vr cfg w w' -> futures_ok w -> futures_ok w'.
Proof.
  intros te vr cfg w w' Hst; induction Hst as [w | w1 w2 w3 H12 H23 IH]; intro H; [exact H |].
  apply IH; exact (futures_ok_step te vr cfg w1 w2 H12 H).
Qed.

Lemma reachable_futures_ok : forall te vr cfg w,
  reachable te vr cfg w -> futures_ok w.
Proof.
  intros te vr cfg w [enc Hst]; apply (steps_futures_ok te vr cfg _ _ Hst).
  split; [constructor | split; [intros _ [] | intros; reflexivity]].
Qed.

(** X5: in every reachable state, the futures of the queued entries and of
    the entries of spawned tasks not yet run are pairwise distinct, already
    handed out and still pending, and every future number not yet handed
    out is pending. In particular every batch task the service runs meets
    the preconditions of the per-member resolution (distinct, pending
    futures). *)
Theorem reachable_futures_pending : forall te vr cfg w,
  reachable te vr cfg w ->
  NoDup (map future (queue_items w)) /\
  (forall item, In item (queue_items w) ->
     future item < next_future w /\ futures w (future item) = FPending) /\
  (forall k, next_future w <= k -> futures w k = FPending) /\
  (forall b pf, In (b, pf) (spawned w) ->
     NoDup (map future b) /\ forall item, In item b -> futures w (future item) = FPending).
Proof.
  intros te vr cfg w Hr.
  destruct (reachable_futures_ok te vr cfg w Hr) as (Hnd & Hin & Hfree).
  split; [exact Hnd | split; [exact Hin | split; [exact Hfree |]]].
  intros b pf Hb.
  destruct (in_split _ _ Hb) as (pre & post & Hsp).
  assert (Hq : queue_items w = pending_requests w ++ concat (map fst pre) ++ b ++ concat (map fst post)).
  { unfold queue_items; rewrite Hsp, map_app, concat_app; reflexivity. }
  split.
  - rewrite Hq, !map_app in Hnd.
    apply NoDup_app_remove_l, NoDup_app_remove_l in Hnd.
    exact (NoDup_app_remove_r _ _ Hnd).
  - intros item Hi; apply Hin; rewrite Hq.
    apply in_or_app; right; apply in_or_app; right; apply in_or_app; left; exact Hi.
Qed.

(** X6: from a reachable state, no step of the service (a request, a
    sweeper tick, a batch task, the [lifespan] teardown or
    [graceful_shutdown]) changes a future that is already settled: a
    caller's result or exception, once set, is final. *)
Theorem settled_futures_final : forall te vr cfg w w' k,
  reachable te vr cfg w ->
  step te vr cfg w w' ->
  futures w k <> FPending ->
  futures w' k = futures w k.
Proof.
  intros te vr cfg w w' k Hr Hst Hk.
  destruct (reachable_futures_ok te vr cfg w Hr) as (_ & _ & Hfree).
  destruct Hst as [w w' Happ | w].
  - destruct Happ as [now req pf w w' o Hadd | now w Hrun | pre batch pf post w Hsp | w].
    + destruct (add_request_cases _ _ _ _ _ _ _ Hadd) as [-> | (_ & Hf & _)]; [reflexivity |].
      rewrite Hf; destruct (Nat.eqb k (next_future w)) eqn:E; [| reflexivity].
      apply Nat.eqb_eq in E; exfalso; apply Hk, Hfree; lia.
    + unfold sweeper_tick; destruct (pending_requests w); [reflexivity |].
      destruct (_ <=? _)%Z; reflexivity.
    + exact (run_batch_fut te vr batch pf (set_spawned (pre ++ post) w) k (fun _ => Hk)).
    + reflexivity.
  - unfold graceful_shutdown; cbv zeta.
    destruct (pending_requests (set_shutting_down true w)) as [| x l]; [reflexivity |].
    exact (run_batch_fut te vr (x :: l) (process_bge_embeddings te)
             (set_pending [] (set_shutting_down true w)) k (fun _ => Hk)).
Qed.

(** X7: [graceful_shutdown], called in a reachable state, settles the
    future of every entry that was queued: each waiting caller gets a
    result or an exception from the final drain. *)
Theorem graceful_shutdown_settles_queue : forall te vr cfg w item,
  reachable te vr cfg w ->
  In item (pending_requests w) ->
  futures (graceful_shutdown te vr w) (future item) <> FPending.
Proof.
  intros te vr cfg w item Hr Hin.
  destruct (reachable_futures_ok te vr cfg w Hr) as (Hnd & Hp & _).
  unfold queue_items in Hnd, Hp; rewrite map_app in Hnd.
  apply NoDup_app_remove_r in Hnd.
  unfold graceful_shutdown; cbv zeta.
  change (pending_requests (set_shutting_down true w)) with (pending_requests w).
  destruct (pending_requests w) as [| x l] eqn:Hq; [destruct Hin |].
  apply run_batch_settles_members; [exact Hnd | | exact Hin].
  intros y Hy; apply (Hp y), in_or_app; left; exact Hy.
Qed.

Lemma step_keeps_well_formed : forall te vr cfg w w',
  step te vr cfg w w' ->
  (forall item, In item (queue_items w) -> well_formed_item item) ->
  forall item, In item (queue_items w') -> well_formed_item item.
Proof.
  intros te vr cfg w w' Hst Hwf y Hy.
  destruct (queue_items_step te vr cfg w w' Hst)
    as [(b & Hperm & _) | (_ & _ & [Hq | (now & req & Hne & Hperm)])].
  - apply Hwf; eapply Permutation_in; [apply Permutation_sym; exact Hperm |].
    apply in_or_app; right; exact Hy.
  - apply Hwf; rewrite <- Hq; exact Hy.
  - apply (Permutation_in _ Hperm), in_app_or in Hy.
    destruct Hy as [Hy | [<- | []]]; [exact (Hwf y Hy) |].
    exists (input_texts (input req)); simpl.
    split; [reflexivity | split; [| reflexivity]].
    destruct (input req) as [s | [| x l]]; simpl; [discriminate | | discriminate].
    exfalso; exact (Hne eq_refl).
Qed.

(** X8: every entry held by a reachable state (queued, or in a spawned
    task not yet run) has a non-empty list of texts as input, and its
    [original_input_length] is the length of that list: [add_request]
    wraps a bare string into a one-element list and never queues an
    empty list. *)
Theorem reachable_items_well_formed : forall te vr cfg w,
  reachable te vr cfg w ->
  forall item, In item (queue_items w) ->
  exists texts, input (request item) = InList texts /\ texts <> [] /\
                original_input_length item = length texts.
Proof.
  intros te vr cfg w [enc Hst].
  assert (H : forall w1 w2, steps te vr cfg w1 w2 ->
            (forall item, In item (queue_items w1) -> well_formed_item item) ->
            forall item, In item (queue_items w2) -> well_formed_item item).
  { intros w1 w2 H12; induction H12 as [w1 | w1 w2 w3 H12 H23 IH]; intro Hwf; [exact Hwf |].
    apply IH; exact (step_keeps_well_formed te vr cfg w1 w2 H12 Hwf). }
  apply (H _ _ Hst); intros item [].
Qed.

Lemma step_keeps_capacity : forall te vr cfg w w',
  step te vr cfg w w' ->
  (Z.of_nat (length (pending_requests w)) <= MAX_QUEUE_SIZE cfg)%Z ->
  (Z.of_nat (length (pending_requests w')) <= MAX_QUEUE_SIZE cfg)%Z.
Proof.
  intros te vr cfg w w' Hst Hq.
  destruct Hst as [w w' Happ | w].
  - destruct Happ as [now req pf w w' o Hadd | now w Hrun | pre batch pf post w Hsp | w].
    + destruct (add_request_cases _ _ _ _ _ _ _ Hadd)
        as [-> | (_ & _ & _ & _ & [[Hp _] | (_ & Hlt & Hle & _)])];
        [exact Hq | rewrite Hp; exact Hq | lia].
    + unfold sweeper_tick; destruct (pending_requests w) eqn:Hp; [rewrite Hp; exact Hq |].
      destruct (_ <=? _)%Z; [simpl; lia | rewrite Hp; exact Hq].
    + destruct (run_batch_frame te vr batch pf (set_spawned (pre ++ post) w)) as (Hp & _).
      rewrite Hp; exact Hq.
    + exact Hq.
  - unfold graceful_shutdown; cbv zeta.
    destruct (pending_requests (set_shutting_down true w)) as [| x l] eqn:Hp.
    + rewrite Hp; simpl; lia.
    + destruct (run_batch_frame te vr (x :: l) (process_bge_embeddings te)
                  (set_pending [] (set_shutting_down true w))) as (Hp' & _).
      rewrite Hp'; simpl; lia.
Qed.

(** X9: with [MAX_QUEUE_SIZE >= 0], the queue of a reachable state never
    holds more than [MAX_QUEUE_SIZE] entries. *)
Theorem queue_within_capacity : forall te vr cfg w,
  (0 <= MAX_QUEUE_SIZE cfg)%Z ->
  reachable te vr cfg w ->
  (Z.of_nat (length (pending_requests w)) <= MAX_QUEUE_SIZE cfg)%Z.
Proof.
  intros te vr cfg w Hmax [enc Hst].
  assert (H : forall w1 w2, steps te vr cfg w1 w2 ->
            (Z.of_nat (length (pending_requests w1)) <= MAX_QUEUE_SIZE cfg)%Z ->
            (Z.of_nat (length (pending_requests w2)) <= MAX_QUEUE_SIZE cfg)%Z).
  { intros w1 w2 H12; induction H12 as [w1 | w1 w2 w3 H12 H23 IH]; intro Hq; [exact Hq |].
    apply IH; exact (step_keeps_capacity te vr cfg w1 w2 H12 Hq). }
  apply (H _ _ Hst); simpl; exact Hmax.
Qed.

Lemma stats_bounded_add : forall cfg w w' (batch : list BatchItem),
  stats_bounded cfg w ->
  (Z.of_nat (length batch) <= BATCH_SIZE cfg)%Z ->
  (total_batches w' = total_batches w /\ total_requests w' = total_requests w) \/
  (batch <> [] /\
   total_batches w' = total_batches w + 1 /\
   total_requests w' = total_requests w + Z.of_nat (length batch))%Z ->
  stats_bounded cfg w'.
Proof.
  intros cfg w w' batch (H0 & H1 & H2) Hlen [[E1 E2] | (Hne & E1 & E2)];
    unfold stats_bounded; rewrite E1, E2; [lia |].
  destruct batch as [| x l]; [contradiction |]; simpl length in *.
  rewrite Z.mul_add_distr_l, Z.mul_1_r; lia.
Qed.

Lemma step_keeps_stats : forall te vr cfg w w',
  (0 < BATCH_SIZE cfg)%Z ->
  step te vr cfg w w' ->
  (Z.of_nat (length (pending_requests w)) < BATCH_SIZE cfg)%Z ->
  (forall b f, In (b, f) (spawned w) -> (Z.of_nat (length b) <= BATCH_SIZE cfg)%Z) ->
  stats_bounded cfg w -> stats_bounded cfg w'.
Proof.
  intros te vr cfg w w' Hbs Hst Hq Hsp Hs.
  destruct Hst as [w w' Happ | w].
  - destruct Happ as [now req pf w w' o Hadd | now w Hrun | pre batch pf post w Hspw | w].
    + destruct (add_request_cases _ _ _ _ _ _ _ Hadd) as [-> | (_ & _ & E1 & E2 & _)];
        [exact Hs | unfold stats_bounded; rewrite E1, E2; exact Hs].
    + unfold sweeper_tick; destruct (pending_requests w); [exact Hs |].
      destruct (_ <=? _)%Z; exact Hs.
    + apply (stats_bounded_add cfg (set_spawned (pre ++ post) w) _ batch Hs).
      * apply (Hsp batch pf); rewrite Hspw; apply in_or_app; right; left; reflexivity.
      * apply run_batch_stats_cases.
    + exact Hs.
  - unfold graceful_shutdown; cbv zeta.
    change (pending_requests (set_shutting_down true w)) with (pending_requests w).
    destruct (pending_requests w) as [| x l] eqn:Hp; [exact Hs |].
    apply (stats_bounded_add cfg (set_pending [] (set_shutting_down true w)) _ (x :: l) Hs).
    + lia.
    + apply run_batch_stats_cases.
Qed.

(** X10: with [BATCH_SIZE >= 1], the counters of [self.stats] in a
    reachable state satisfy
    [0 <= total_batches <= total_requests <= BATCH_SIZE * total_batches]:
    every counted batch has between 1 and [BATCH_SIZE] requests, so
    [avg_batch_size], when defined, lies between 1 and [BATCH_SIZE]. *)
Theorem reachable_stats_bounded : forall te vr cfg w,
  (0 < BATCH_SIZE cfg)%Z ->
  reachable te vr cfg w ->
  (0 <= total_batches w /\ total_batches w <= total_requests w /\
   total_requests w <= BATCH_SIZE cfg * total_batches w)%Z.
Proof.
  intros te vr cfg w Hbs [enc Hst].
  assert (H : forall w1 w2, steps te vr cfg w1 w2 ->
            (Z.of_nat (length (pending_requests w1)) < BATCH_SIZE cfg)%Z ->
            (forall b f, In (b, f) (spawned w1) -> (Z.of_nat (length b) <= BATCH_SIZE cfg)%Z) ->
            stats_bounded cfg w1 -> stats_bounded cfg w2).
  { intros w1 w2 H12; induction H12 as [w1 | w1 w2 w3 H12 H23 IH]; intros Hq Hsp Hs; [exact Hs |].
    destruct (step_keeps_bound te vr cfg w1 w2 Hbs H12 Hq Hsp) as [Hq2 Hsp2].
    exact (IH Hq2 Hsp2 (step_keeps_stats te vr cfg w1 w2 Hbs H12 Hq Hsp Hs)). }
  apply (H _ _ Hst).
  - simpl; lia.
  - intros b f [].
  - unfold stats_bounded; simpl; lia.
Qed.

(** *** Input validation *)

Lemma length_list_ascii_of_string (t : string) :
  length (list_ascii_of_string t) = String.length t.
Proof. induction t as [| c t IH]; simpl; congruence. Qed.

Lemma lstrip_length (isspace : ascii -> bool) (l : list ascii) :
  length (lstrip isspace l) <= length l.
Proof. induction l as [| c l IH]; simpl; [lia | destruct (isspace c); simpl; lia]. Qed.

Lemma py_strip_length (isspace : ascii -> bool) (t : string) :
  length (py_strip isspace t) <= String.length t.
Proof.
  unfold py_strip. rewrite length_rev.
  pose proof (lstrip_length isspace (rev (lstrip isspace (list_ascii_of_string t)))) as H1.
  pose proof (lstrip_length isspace (list_ascii_of_string t)) as H2.
  rewrite length_rev, length_list_ascii_of_string in *. lia.
Qed.

Lemma collapse_ws_length (isspace : ascii -> bool) (b : bool) (l : list ascii) :
  length (collapse_ws isspace b l) <= length l.
Proof.
  revert b; induction l as [| c l IH]; intros b; simpl; [lia |].
  pose proof (IH true); pose proof (IH false).
  destruct (isspace c); [destruct b |]; simpl; lia.
Qed.

Lemma estimate_tokens_bounds_aux (isspace : ascii -> bool) (t : string) :
  (1 <= estimate_tokens isspace t <= Z.max 1 (py_len t / CHARS_PER_TOKEN_ESTIMATE))%Z.
Proof.
  unfold estimate_tokens, py_len, CHARS_PER_TOKEN_ESTIMATE.
  pose proof (collapse_ws_length isspace false (py_strip isspace t)).
  pose proof (py_strip_length isspace t).
  assert (Z.of_nat (length (collapse_ws isspace false (py_strip isspace t))) / 4
          <= Z.of_nat (String.length t) / 4)%Z by (apply Z.div_le_mono; lia).
  lia.
Qed.

Lemma token_check_unreachable_aux (isspace : ascii -> bool) (t : string) :
  (py_len t <= MAX_CHAR_LENGTH)%Z -> (estimate_tokens isspace t <= MAX_TOKEN_LENGTH)%Z.
Proof.
  intros H. pose proof (estimate_tokens_bounds_aux isspace t) as [_ Hb].
  unfold MAX_CHAR_LENGTH, MAX_TOKEN_LENGTH, CHARS_PER_TOKEN_ESTIMATE in *.
  assert (py_len t / 4 <= 32768 / 4)%Z by (apply Z.div_le_mono; lia).
  change (32768 / 4)%Z with 8192%Z in *. lia.
Qed.

Lemma validate_single_text_none_iff (isspace : ascii -> bool) (t : string) (i : nat) :
  validate_single_text isspace t i = None <-> text_acceptable isspace t.
Proof.
  unfold validate_single_text, text_acceptable.
  destruct (Z.ltb_spec (Z.of_nat (length (py_strip isspace t))) MIN_CHAR_LENGTH) as [H1 | H1];
    unfold MIN_CHAR_LENGTH in H1.
  - split; [discriminate | intros [Hne _]].
    destruct (py_strip isspace t); [congruence | simpl in H1; lia].
  - destruct (Z.ltb_spec MAX_CHAR_LENGTH (py_len t)) as [H2 | H2].
    + split; [discriminate | lia].
    + pose proof (token_check_unreachable_aux isspace t H2) as H3.
      destruct (Z.ltb_spec MAX_TOKEN_LENGTH (estimate_tokens isspace t)); [lia |].
      split; [intros _; split; [| exact H2] | reflexivity].
      intros E; rewrite E in H1; simpl in H1; lia.
Qed.

Lemma validate_single_text_400 (isspace : ascii -> bool) (t : string) (i : nat) (e : Exn) :
  validate_single_text isspace t i = Some e -> exists d, e = HTTPException 400 d.
Proof.
  unfold validate_single_text.
  repeat match goal with |- context [if ?c then _ else _] => destruct c end;
    intros E; inversion E; eauto; discriminate.
Qed.

Lemma validate_from_none_iff (isspace : ascii -> bool) (l : list string) (k : nat) :
  validate_from isspace k l = None <-> Forall (text_acceptable isspace) l.
Proof.
  revert k; induction l as [| t l IH]; intros k; simpl.
  - split; auto.
  - rewrite Forall_cons_iff, <- (validate_single_text_none_iff isspace t k), <- (IH (S k)).
    destruct (validate_single_text isspace t k); split; try discriminate; intuition.
Qed.

Lemma validate_from_400 (isspace : ascii -> bool) (l : list string) (k : nat) (e : Exn) :
  validate_from isspace k l = Some e -> exists d, e = HTTPException 400 d.
Proof.
  revert k; induction l as [| t l IH]; intros k; simpl; [discriminate |].
  destruct (validate_single_text isspace t k) eqn:E.
  - intros H; inversion H; subst; eapply validate_single_text_400; exact E.
  - apply IH.
Qed.

Lemma validate_texts_ok_iff (isspace : ascii -> bool) (max_batch : Z) (i : Input) (l : list string) :
  validate_texts isspace max_batch i = Ok l <->
  l = input_texts i /\ l <> [] /\ (Z.of_nat (length l) <= max_batch)%Z /\
  Forall (text_acceptable isspace) l.
Proof.
  assert (Hgen : forall l0, i <> InList [] -> input_texts i = l0 ->
            (if (max_batch <? Z.of_nat (length l0))%Z then
               Err (HTTPException 400 ("Too many texts in batch: " ++ py_str (Z.of_nat (length l0))
                 ++ " (maximum: " ++ py_str max_batch ++ ")"))
             else match validate_from isspace 0 l0 with Some e => Err e | None => Ok l0 end) = Ok l <->
            l = input_texts i /\ l <> [] /\ (Z.of_nat (length l) <= max_batch)%Z /\
            Forall (text_acceptable isspace) l).
  { intros l0 Hi Hl0.
    assert (Hne : l0 <> []) by (destruct i as [s | [| x r]]; simpl in Hl0; subst; congruence).
    destruct (Z.ltb_spec max_batch (Z.of_nat (length l0))) as [Hb | Hb].
    - split; [discriminate | intros (-> & _ & Hle & _); subst; lia].
    - destruct (validate_from isspace 0 l0) as [e |] eqn:Ev.
      + split; [discriminate |]. intros (-> & _ & _ & Hf).
        rewrite Hl0, <- (validate_from_none_iff isspace _ 0), Ev in Hf; discriminate.
      + apply validate_from_none_iff in Ev.
        split; [intros H; inversion H; subst; auto | intros (-> & _); subst; reflexivity]. }
  destruct i as [s | [| x r]]; unfold validate_texts.
  - apply Hgen; [discriminate | reflexivity].
  - split; [discriminate | intros (-> & H & _); simpl in H; congruence].
  - apply (Hgen (x :: r)); [discriminate | reflexivity].
Qed.

Lemma validate_texts_400 (isspace : ascii -> bool) (max_batch : Z) (i : Input) (e : Exn) :
  validate_texts isspace max_batch i = Err e -> exists d, e = HTTPException 400 d.
Proof.
  unfold validate_texts.
  destruct i as [s | [| x r]]; [| intros H; inversion H; eauto |];
    (destruct (max_batch <? _)%Z; [intros H; inversion H; eauto |]);
    destruct (validate_from isspace 0 _) eqn:E; intros H; inversion H; subst;
    eapply validate_from_400; exact E.
Qed.

Lemma validate_from_first_error (isspace : ascii -> bool) (l : list string) (k n : nat)
  (t : string) (e : Exn) :
  nth_error l n = Some t ->
  validate_single_text isspace t (k + n) = Some e ->
  (forall m t', m < n -> nth_error l m = Some t' -> text_acceptable isspace t') ->
  validate_from isspace k l = Some e.
Proof.
  revert k n; induction l as [| t0 l IH]; intros k n Hn He Hbefore; [destruct n; discriminate |].
  simpl. destruct n as [| n].
  - simpl in Hn; inversion Hn; subst. rewrite Nat.add_0_r in He; rewrite He; reflexivity.
  - assert (H0 : validate_single_text isspace t0 k = None).
    { apply validate_single_text_none_iff, (Hbefore 0 t0); [lia | reflexivity]. }
    rewrite H0. apply (IH (S k) n); [exact Hn | rewrite <- He; f_equal; lia |].
    intros m t' Hm Ht'. apply (Hbefore (S m) t'); [lia | exact Ht'].
Qed.

(** *** The [/v1/embeddings] route *)

Lemma steps_snoc : forall te vr cfg w1 w2 w3,
  steps te vr cfg w1 w2 -> step te vr cfg w2 w3 -> steps te vr cfg w1 w3.
Proof.
  intros te vr cfg w1 w2 w3 H12 H23; induction H12 as [w | a b c Hab Hbc IH].
  - eapply steps_cons; [exact H23 | apply steps_refl].
  - eapply steps_cons; [exact Hab | exact (IH H23)].
Qed.

Lemma add_request_nonempty_not_returned : forall cfg now req pf w texts v,
  texts <> [] -> snd (add_request cfg now (with_input req texts) pf w) <> Returned v.
Proof.
  intros cfg now req pf w texts v Hne; unfold add_request; simpl input.
  destruct (is_shutting_down w); [discriminate |].
  destruct texts as [| x l]; [contradiction |]; simpl pending_requests.
  destruct (_ <=? _)%Z; [discriminate |].
  destruct (should_process _ _ _); discriminate.
Qed.

Lemma create_embeddings_cases_aux : forall isspace max_batch te cfg now req w,
  (exists d, create_embeddings isspace max_batch te cfg now req w =
             (w, Raised (HTTPException 400 d))) \/
  (exists texts,
     texts = input_texts (input req) /\ texts <> [] /\
     (Z.of_nat (length texts) <= max_batch)%Z /\ Forall (text_acceptable isspace) texts /\
     create_embeddings isspace max_batch te cfg now req w =
     add_request cfg now (with_input req texts) (process_bge_embeddings te) w).
Proof.
  intros isspace max_batch te cfg now req w.
  unfold create_embeddings, validate_embedding_input, get_input_stats.
  destruct (validate_texts isspace max_batch (input req)) as [l | e] eqn:Hv.
  - right. pose proof Hv as Hv'.
    apply validate_texts_ok_iff in Hv' as (Hl & Hne & Hle & Hall).
    assert (Hv2 : validate_texts isspace max_batch (InList l) = Ok l)
      by (apply validate_texts_ok_iff; auto).
    rewrite Hv2. exists l; auto.
  - left. destruct (validate_texts_400 _ _ _ _ Hv) as [d ->]. exists d; reflexivity.
Qed.

(** *** [process_bge_embeddings] on its own *)

Lemma process_bge_success_aux : forall te req f r,
  input req <> InList [] ->
  process_bge_embeddings te req (Some f) = Ok r ->
  (return_dense req || return_sparse req || return_colbert req) = true /\
  exists er, f (input_texts (input req)) = Ok er /\
    length (data r) = length (input_texts (input req)) /\
    (forall i d, nth_error (data r) i = Some d ->
       index d = i /\ carries_only_requested req d = true /\
       dense_embedding d = (if return_dense req then vec_at (dense_vecs er) i else None) /\
       sparse_embedding d = (if return_sparse req then vec_at (lexical_weights er) i else None) /\
       colbert_embedding d = (if return_colbert req then vec_at (colbert_vecs er) i else None)) /\
    resp_model r = model req /\
    prompt_tokens r = te (input_texts (input req)) /\
    total_tokens r = te (input_texts (input req)) /\
    embedding_types r =
      requested_types (return_dense req) (return_sparse req) (return_colbert req).
Proof.
  intros te req f r Hne H.
  assert (Hgen : forall inputs,
    (if negb (return_dense req || return_sparse req || return_colbert req) then
       Err (ValueError "At least one vector type must be requested (return_dense, return_sparse, or return_colbert)")
     else match f inputs with
          | Err e => Err e
          | Ok er =>
            Ok (mkResponse (map (bge_data (return_dense req) (return_sparse req) (return_colbert req) er)
                                (seq 0 (length inputs)))
                  (model req) (te inputs) (te inputs)
                  (requested_types (return_dense req) (return_sparse req) (return_colbert req)))
          end) = Ok r ->
    (return_dense req || return_sparse req || return_colbert req) = true /\
    exists er, f inputs = Ok er /\ length (data r) = length inputs /\
      (forall i d, nth_error (data r) i = Some d ->
         index d = i /\ carries_only_requested req d = true /\
         dense_embedding d = (if return_dense req then vec_at (dense_vecs er) i else None) /\
         sparse_embedding d = (if return_sparse req then vec_at (lexical_weights er) i else None) /\
         colbert_embedding d = (if return_colbert req then vec_at (colbert_vecs er) i else None)) /\
      resp_model r = model req /\ prompt_tokens r = te inputs /\ total_tokens r = te inputs /\
      embedding_types r =
        requested_types (return_dense req) (return_sparse req) (return_colbert req)).
  { intros inputs Hr.
    destruct (return_dense req || return_sparse req || return_colbert req) eqn:Hflags;
      [| discriminate].
    simpl in Hr. destruct (f inputs) as [er | e]; [| discriminate].
    injection Hr as <-. split; [reflexivity |]. exists er; simpl.
    split; [reflexivity |]. split; [rewrite length_map, length_seq; reflexivity |].
    split; [| repeat split; reflexivity].
    intros i d Hd. rewrite nth_error_map, nth_error_seq in Hd.
    destruct (Nat.ltb i (length inputs)); [| discriminate].
    injection Hd as <-. unfold carries_only_requested, bge_data; simpl.
    destruct (return_dense req), (return_sparse req), (return_colbert req);
      repeat split; simpl;
      repeat match goal with |- context [match ?v with Some _ => _ | None => _ end] =>
               destruct v end; reflexivity. }
  unfold process_bge_embeddings in H.
  destruct (input req) as [s | [| x l]]; [| contradiction |]; exact (Hgen _ H).
Qed.

Lemma bare_string_as_list_aux : forall te cfg now req pf w enc s,
  input req = InStr s ->
  process_bge_embeddings te req enc = process_bge_embeddings te (with_input req [s]) enc /\
  add_request cfg now req pf w = add_request cfg now (with_input req [s]) pf w.
Proof.
  intros te cfg now req pf w enc s Hs.
  unfold process_bge_embeddings, add_request; rewrite Hs; split; reflexivity.
Qed.

(** *** Further properties, as stated *)

(** The token estimate of [estimate_tokens] is at least 1 and at most
    [max(1, len(text) // 4)]: collapsing whitespace and stripping never
    lengthen the text. *)
Theorem estimate_tokens_bounds : forall isspace t,
  (1 <= estimate_tokens isspace t <= Z.max 1 (py_len t / CHARS_PER_TOKEN_ESTIMATE))%Z.
Proof. exact estimate_tokens_bounds_aux. Qed.

(** A text of at most [MAX_CHAR_LENGTH] characters is estimated at most
    [MAX_TOKEN_LENGTH] tokens, so the token check of
    [validate_single_text], which runs only after the character check
    passed, never rejects anything. *)
Theorem token_check_unreachable : forall isspace t,
  (py_len t <= MAX_CHAR_LENGTH)%Z -> (estimate_tokens isspace t <= MAX_TOKEN_LENGTH)%Z.
Proof. exact token_check_unreachable_aux. Qed.

(** [validate_single_text] accepts a text (at any index) exactly when
    something is left after [strip()] and it has at most [MAX_CHAR_LENGTH]
    characters. *)
Theorem validate_single_text_accepts : forall isspace t i,
  validate_single_text isspace t i = None <-> text_acceptable isspace t.
Proof. exact validate_single_text_none_iff. Qed.

(** [validate_texts] returns [l] exactly when [l] is the input as a list
    (a bare string as a one-element list), [l] is non-empty, has at most
    [MAX_BATCH_SIZE] texts, and every text passes [validate_single_text]. *)
Theorem validate_texts_accepts : forall isspace max_batch i l,
  validate_texts isspace max_batch i = Ok l <->
  l = input_texts i /\ l <> [] /\ (Z.of_nat (length l) <= max_batch)%Z /\
  Forall (text_acceptable isspace) l.
Proof. exact validate_texts_ok_iff. Qed.

(** On a non-empty list within [MAX_BATCH_SIZE], [validate_texts] raises
    the error of the first text (by index) that fails
    [validate_single_text], reported with that index. *)
Theorem validate_texts_first_invalid : forall isspace max_batch l n t e,
  l <> [] ->
  (Z.of_nat (length l) <= max_batch)%Z ->
  nth_error l n = Some t ->
  validate_single_text isspace t n = Some e ->
  (forall m t', m < n -> nth_error l m = Some t' -> text_acceptable isspace t') ->
  validate_texts isspace max_batch (InList l) = Err e.
Proof.
  intros isspace max_batch l n t e Hne Hle Hn He Hbefore.
  unfold validate_texts. destruct l as [| x r]; [contradiction |].
  unfold input_texts. destruct (Z.ltb_spec max_batch (Z.of_nat (length (x :: r)))); [lia |].
  rewrite (validate_from_first_error isspace (x :: r) 0 n t e Hn He Hbefore). reflexivity.
Qed.

(** Validation is idempotent: the list [validate_texts] returns passes
    [validate_texts] again unchanged, so the second validation done by
    [get_input_stats] in the route never raises. *)
Theorem validate_texts_idempotent : forall isspace max_batch i l,
  validate_texts isspace max_batch i = Ok l ->
  validate_texts isspace max_batch (InList l) = Ok l.
Proof.
  intros isspace max_batch i l H.
  apply validate_texts_ok_iff in H as (_ & Hne & Hle & Hall).
  apply validate_texts_ok_iff; auto.
Qed.

(** The [/v1/embeddings] route either rejects the request with an HTTP 400
    and leaves the batch processor untouched, or it hands [add_request]
    the request with its input replaced by the validated list, which is
    the input as a list, non-empty, within [MAX_BATCH_SIZE], and made of
    acceptable texts. *)
Theorem create_embeddings_cases : forall isspace max_batch te cfg now req w,
  (exists d, create_embeddings isspace max_batch te cfg now req w =
             (w, Raised (HTTPException 400 d))) \/
  (exists texts,
     texts = input_texts (input req) /\ texts <> [] /\
     (Z.of_nat (length texts) <= max_batch)%Z /\ Forall (text_acceptable isspace) texts /\
     create_embeddings isspace max_batch te cfg now req w =
     add_request cfg now (with_input req texts) (process_bge_embeddings te) w).
Proof. exact create_embeddings_cases_aux. Qed.

(** Through the route a caller never gets a response computed on the
    spot: the answer is an exception or the wait on a queued future, so
    the empty-input path of [add_request] (which calls
    [process_func(request, None)]) is never taken. *)
Theorem create_embeddings_never_immediate : forall isspace max_batch te cfg now req w v,
  snd (create_embeddings isspace max_batch te cfg now req w) <> Returned v.
Proof.
  intros isspace max_batch te cfg now req w v.
  destruct (create_embeddings_cases_aux isspace max_batch te cfg now req w)
    as [[d ->] | (texts & _ & Hne & _ & _ & ->)]; [discriminate |].
  apply add_request_nonempty_not_returned; exact Hne.
Qed.

(** A call of the route moves a reachable state of the batch processor to
    a reachable state (it is one of the service's steps), so every
    invariant of reachable states holds after it. *)
Theorem create_embeddings_reachable : forall te vr cfg isspace max_batch te' now req w,
  reachable te vr cfg w ->
  reachable te vr cfg (fst (create_embeddings isspace max_batch te' cfg now req w)).
Proof.
  intros te vr cfg isspace max_batch te' now req w [enc Hw].
  destruct (create_embeddings_cases_aux isspace max_batch te' cfg now req w)
    as [[d ->] | (texts & _ & _ & _ & _ & ->)]; [exists enc; exact Hw |].
  exists enc. eapply steps_snoc; [exact Hw |]. apply step_app.
  eapply step_request. rewrite (surjective_pairing (add_request _ _ _ _ _)). reflexivity.
Qed.

(** A successful [process_bge_embeddings] call on a non-empty input asked
    for at least one kind and got the encoder's result: one data entry per
    input text, the [i]-th with [index = i] and carrying exactly the
    requested kinds the encoder produced for text [i]; model, usage and
    [embedding_types] come from the request and its texts. *)
Theorem process_bge_success_shape : forall te req f r,
  input req <> InList [] ->
  process_bge_embeddings te req (Some f) = Ok r ->
  (return_dense req || return_sparse req || return_colbert req) = true /\
  exists er, f (input_texts (input req)) = Ok er /\
    length (data r) = length (input_texts (input req)) /\
    (forall i d, nth_error (data r) i = Some d ->
       index d = i /\ carries_only_requested req d = true /\
       dense_embedding d = (if return_dense req then vec_at (dense_vecs er) i else None) /\
       sparse_embedding d = (if return_sparse req then vec_at (lexical_weights er) i else None) /\
       colbert_embedding d = (if return_colbert req then vec_at (colbert_vecs er) i else None)) /\
    resp_model r = model req /\
    prompt_tokens r = te (input_texts (input req)) /\
    total_tokens r = te (input_texts (input req)) /\
    embedding_types r =
      requested_types (return_dense req) (return_sparse req) (return_colbert req).
Proof. exact process_bge_success_aux. Qed.

(** A bare string input is handled as the one-element list holding it,
    both by [process_bge_embeddings] and by [add_request]. *)
Theorem bare_string_as_list : forall te cfg now req pf w enc s,
  input req = InStr s ->
  process_bge_embeddings te req enc = process_bge_embeddings te (with_input req [s]) enc /\
  add_request cfg now req pf w = add_request cfg now (with_input req [s]) pf w.
Proof. exact bare_string_as_list_aux. Qed.

(** *** Concrete instances of the further properties *)

Lemma w_two_done_reachable : reachable te_count no_validation_error cfg_pair w_two_done.
Proof.
  exists enc_all.
  apply steps_cons with (w2 := w_dense_first).
  { apply step_app.
    apply step_request with (now := 0%Z) (req := req_text "alpha" true false false) (pf := bge)
      (o := snd (add_request cfg_pair 0 (req_text "alpha" true false false) bge w_start)).
    reflexivity. }
  apply steps_cons with (w2 := w_two).
  { apply step_app.
    apply step_request with (now := 1%Z) (req := req_text "beta" false true false) (pf := bge)
      (o := snd (add_request cfg_pair 1 (req_text "beta" false true false) bge w_dense_first)).
    reflexivity. }
  apply steps_cons with (w2 := w_two_done); [| apply steps_refl].
  apply step_app.
  replace w_two_done with
    (run_batch te_count no_validation_error [item_alpha; item_beta] bge (set_spawned ([] ++ []) w_two))
    by reflexivity.
  apply step_batch. reflexivity.
Qed.

Lemma run_batch_touches_only_pending_members_witness :
  (In 7 (map future [item_alpha; item_beta]) -> futures w_two 7 <> FPending) /\
  futures (run_batch te_count no_validation_error [item_alpha; item_beta] bge w_two) 7 =
  futures w_two 7.
Proof.
  assert (H : In 7 (map future [item_alpha; item_beta]) -> futures w_two 7 <> FPending)
    by (simpl; intros [E | [E | []]]; discriminate E).
  split; [exact H | exact (run_batch_touches_only_pending_members _ _ _ _ _ _ H)].
Defined.

Lemma run_batch_without_encoder_witness :
  app_encoder (lifespan_shutdown w_two) = None /\
  futures (run_batch te_count no_validation_error [item_alpha; item_beta] bge
             (lifespan_shutdown w_two)) (future item_alpha) =
  FError (AttributeError "'State' object has no attribute 'encoder'").
Proof.
  split; [reflexivity |].
  apply (run_batch_without_encoder te_count no_validation_error [item_alpha; item_beta] bge
           (lifespan_shutdown w_two)); [reflexivity | left; reflexivity | vm_compute; reflexivity].
Defined.

Lemma run_batch_settles_every_member_witness :
  NoDup (map future [item_alpha; item_beta]) /\
  futures (run_batch te_count no_validation_error [item_alpha; item_beta] bge w_two)
    (future item_beta) <> FPending.
Proof.
  assert (Hnd : NoDup (map future [item_alpha; item_beta])).
  { simpl; constructor; [simpl; intros [H | []]; discriminate H | constructor; [intros [] | constructor]]. }
  split; [exact Hnd |].
  apply (run_batch_settles_every_member te_count no_validation_error _ bge w_two Hnd);
    [| right; left; reflexivity].
  intros item [<- | [<- | []]]; vm_compute; reflexivity.
Defined.

Lemma reachable_futures_pending_witness :
  reachable te_count no_validation_error cfg_default w_queued /\
  NoDup (map future (queue_items w_queued)).
Proof.
  split; [exact (w_queued_reachable no_validation_error) |].
  exact (proj1 (reachable_futures_pending te_count no_validation_error cfg_default w_queued
                  (w_queued_reachable no_validation_error))).
Defined.

Lemma settled_futures_final_witness :
  reachable te_count no_validation_error cfg_pair w_two_done /\
  futures (graceful_shutdown te_count no_validation_error w_two_done) 0 = futures w_two_done 0.
Proof.
  split; [exact w_two_done_reachable |].
  apply (settled_futures_final te_count no_validation_error cfg_pair w_two_done _ 0
           w_two_done_reachable); [apply step_graceful | vm_compute; discriminate].
Defined.

Lemma graceful_shutdown_settles_queue_witness :
  In item_alpha_all (pending_requests w_queued) /\
  futures (graceful_shutdown te_count no_validation_error w_queued) (future item_alpha_all)
    <> FPending.
Proof.
  assert (Hin : In item_alpha_all (pending_requests w_queued)) by (left; reflexivity).
  split; [exact Hin |].
  exact (graceful_shutdown_settles_queue te_count no_validation_error cfg_default w_queued
           item_alpha_all (w_queued_reachable no_validation_error) Hin).
Defined.

Lemma reachable_items_well_formed_witness :
  In item_alpha_all (queue_items w_queued) /\
  exists texts, input (request item_alpha_all) = InList texts /\ texts <> [] /\
                original_input_length item_alpha_all = length texts.
Proof.
  assert (Hin : In item_alpha_all (queue_items w_queued)) by (left; reflexivity).
  split; [exact Hin |].
  exact (reachable_items_well_formed te_count no_validation_error cfg_default w_queued
           (w_queued_reachable no_validation_error) item_alpha_all Hin).
Defined.

Lemma queue_within_capacity_witness :
  (0 <= MAX_QUEUE_SIZE cfg_default)%Z /\
  (Z.of_nat (length (pending_requests w_queued)) <= MAX_QUEUE_SIZE cfg_default)%Z.
Proof.
  assert (H0 : (0 <= MAX_QUEUE_SIZE cfg_default)%Z) by (simpl; lia).
  split; [exact H0 |].
  exact (queue_within_capacity te_count no_validation_error cfg_default w_queued H0
           (w_queued_reachable no_validation_error)).
Defined.

Lemma reachable_stats_bounded_witness :
  (0 < BATCH_SIZE cfg_pair)%Z /\
  (0 <= total_batches w_two_done /\ total_batches w_two_done <= total_requests w_two_done /\
   total_requests w_two_done <= BATCH_SIZE cfg_pair * total_batches w_two_done)%Z.
Proof.
  assert (H0 : (0 < BATCH_SIZE cfg_pair)%Z) by (simpl; lia).
  split; [exact H0 |].
  exact (reachable_stats_bounded te_count no_validation_error cfg_pair w_two_done H0
           w_two_done_reachable).
Defined.

Lemma token_check_unreachable_witness :
  (py_len "a  long	text" <= MAX_CHAR_LENGTH)%Z /\
  (estimate_tokens py_isspace "a  long	text" <= MAX_TOKEN_LENGTH)%Z.
Proof.
  assert (H : (py_len "a  long	text" <= MAX_CHAR_LENGTH)%Z) by (vm_compute; discriminate).
  split; [exact H | exact (token_check_unreachable py_isspace _ H)].
Defined.

Lemma validate_texts_first_invalid_witness :
  validate_single_text py_isspace "  " 1 =
    Some (HTTPException 400 "Text at index 1 is too short (minimum 1 characters)") /\
  validate_texts py_isspace 100 (InList ["ok"; "  "; ""]) =
    Err (HTTPException 400 "Text at index 1 is too short (minimum 1 characters)").
Proof.
  assert (He : validate_single_text py_isspace "  " 1 =
    Some (HTTPException 400 "Text at index 1 is too short (minimum 1 characters)"))
    by (vm_compute; reflexivity).
  split; [exact He |].
  apply (validate_texts_first_invalid py_isspace 100 ["ok"; "  "; ""] 1 "  ");
    [discriminate | simpl; lia | reflexivity | exact He |].
  intros m t' Hm Ht'. destruct m as [| m]; [| lia].
  simpl in Ht'. injection Ht' as <-. split; [vm_compute; discriminate | vm_compute; discriminate].
Defined.

Lemma validate_texts_idempotent_witness :
  validate_texts py_isspace 100 (InStr " hello ") = Ok [" hello "] /\
  validate_texts py_isspace 100 (InList [" hello "]) = Ok [" hello "].
Proof.
  assert (H : validate_texts py_isspace 100 (InStr " hello ") = Ok [" hello "])
    by (vm_compute; reflexivity).
  split; [exact H | exact (validate_texts_idempotent _ _ _ _ H)].
Defined.

Lemma create_embeddings_reachable_witness :
  reachable te_count no_validation_error cfg_default w_queued /\
  reachable te_count no_validation_error cfg_default
    (fst (create_embeddings py_isspace 100 te_count cfg_default 1
            (req_text "beta" true true true) w_queued)).
Proof.
  split; [exact (w_queued_reachable no_validation_error) |].
  exact (create_embeddings_reachable te_count no_validation_error cfg_default py_isspace 100
           te_count 1 (req_text "beta" true true true) w_queued
           (w_queued_reachable no_validation_error)).
Defined.

Lemma process_bge_success_shape_witness :
  process_bge_embeddings te_count (req_text "alpha" true false false) (Some enc_all) =
    Ok (mkResponse [mkData 0 (Some [1.5%float]) None None] "BAAI/bge-m3" 1 1 ["dense"]) /\
  (return_dense (req_text "alpha" true false false) ||
   return_sparse (req_text "alpha" true false false) ||
   return_colbert (req_text "alpha" true false false)) = true.
Proof.
  assert (H : process_bge_embeddings te_count (req_text "alpha" true false false) (Some enc_all) =
    Ok (mkResponse [mkData 0 (Some [1.5%float]) None None] "BAAI/bge-m3" 1 1 ["dense"]))
    by (vm_compute; reflexivity).
  split; [exact H |].
  exact (proj1 (process_bge_success_shape te_count (req_text "alpha" true false false) enc_all _
                  ltac:(discriminate) H)).
Defined.

Lemma bare_string_as_list_witness :
  input (req_text "alpha" true true true) = InStr "alpha" /\
  add_request cfg_default 0 (req_text "alpha" true true true) bge w_start =
  add_request cfg_default 0 (with_input (req_text "alpha" true true true) ["alpha"]) bge w_start.
Proof.
  assert (H : input (req_text "alpha" true true true) = InStr "alpha") by reflexivity.
  split; [exact H |].
  exact (proj2 (bare_string_as_list te_count cfg_default 0 _ bge w_start (Some enc_all) "alpha" H)).
Defined.
